(** * A shallow embedding of ptool (src/src/ptool, with notes on src/ptool.py)

    ptool walks a directory tree, runs one EXIF worker per selected file as
    an asyncio task, and folds the task results, in completion order, into
    a text report.  The model below follows the final revision
    ([src/src/ptool]):
    - a Python [str] is a list of Unicode code points ([list Z]); [bytes] is
      a [list byte];
    - raised exceptions are the [Err] branch of the result type [Res];
    - the EXIF reader of PIL ([workers.exif]) is an external collaborator,
      taken as a parameter [exif : pystr -> Res Exif];
    - [os.walk] is an external collaborator as well: its output is the list
      of (dirpath, dirnames, filenames) triples it yields;
    - the completion order of the tasks ([asyncio.as_completed]) is the
      scheduler's choice, a parameter [complete] returning a permutation of
      the task list. *)

From Stdlib Require Import String Ascii Strings.Byte ZArith.
From stdpp Require Import base list gmap sorting.

Open Scope Z_scope.

(** ** Python values *)

Abbreviation pystr := (list Z).

(** A Python string literal (ASCII only) as code points. *)
Definition lit (s : string) : pystr :=
  map (fun c => Z.of_N (Ascii.N_of_ascii c)) (list_ascii_of_string s).
Arguments lit _%_string_scope.

(** A Python bytes literal (ASCII only). *)
Definition blit (s : string) : list byte :=
  map byte_of_ascii (list_ascii_of_string s).
Arguments blit _%_string_scope.

#[global] Instance byte_eq_dec : EqDecision byte := Byte.byte_eq_dec.

Definition byte_val (b : byte) : Z := Z.of_N (Byte.to_N b).

(** [str.isspace] for one code point: the characters Python treats as
    whitespace (bidirectional class WS, B, S or category Zs). *)
Definition is_space (c : Z) : bool :=
  ((9 <=? c) && (c <=? 13)) || ((28 <=? c) && (c <=? 32)) ||
  (c =? 133) || (c =? 160) || (c =? 5760) ||
  ((8192 <=? c) && (c <=? 8202)) || (c =? 8232) || (c =? 8233) ||
  (c =? 8239) || (c =? 8287) || (c =? 12288).

Fixpoint lstrip_by (p : Z -> bool) (s : pystr) : pystr :=
  match s with
  | [] => []
  | c :: s' => if p c then lstrip_by p s' else s
  end.

Definition rstrip_by (p : Z -> bool) (s : pystr) : pystr :=
  rev (lstrip_by p (rev s)).

(** [s.strip()] *)
Definition strip (s : pystr) : pystr := rstrip_by is_space (lstrip_by is_space s).

(** Trimming whitespace and NUL characters from both ends of [s] in one
    pass: [s.strip(whitespace + "\x00")]. *)
Definition trim_ws_nul (s : pystr) : pystr :=
  rstrip_by (fun c => is_space c || (c =? 0)) (lstrip_by (fun c => is_space c || (c =? 0)) s).

(** [s.strip(ch)] for a one-character argument. *)
Definition strip_char (ch : Z) (s : pystr) : pystr :=
  rstrip_by (Z.eqb ch) (lstrip_by (Z.eqb ch) s).

(** [sep.join(xs)] *)
Fixpoint join (sep : pystr) (xs : list pystr) : pystr :=
  match xs with
  | [] => []
  | [x] => x
  | x :: xs' => x ++ sep ++ join sep xs'
  end.

(** [s.split()] with no argument: maximal runs of non-whitespace. *)
Fixpoint split_ws_acc (cur : pystr) (s : pystr) : list pystr :=
  match s with
  | [] => if decide (cur = []) then [] else [rev cur]
  | c :: s' =>
      if is_space c
      then (if decide (cur = []) then [] else [rev cur]) ++ split_ws_acc [] s'
      else split_ws_acc (c :: cur) s'
  end.
Definition split_ws (s : pystr) : list pystr := split_ws_acc [] s.

Fixpoint starts_with (p s : pystr) : bool :=
  match p, s with
  | [], _ => true
  | c :: p', d :: s' => (c =? d) && starts_with p' s'
  | _ :: _, [] => false
  end.

Definition ends_with (p s : pystr) : bool := starts_with (rev p) (rev s).

(** [x in s] for strings: [x] occurs at some position of [s]
    (the empty string occurs in every string). *)
Fixpoint contains (x s : pystr) : bool :=
  starts_with x s ||
  match s with
  | [] => false
  | _ :: s' => contains x s'
  end.

(** Decimal digits of a non-negative count, as [str(n)] prints them. *)
Fixpoint digits_fuel (fuel : nat) (n : nat) (acc : pystr) : pystr :=
  match fuel with
  | O => acc
  | S fuel' =>
      let d := Z.of_nat (n mod 10)%nat + 48 in
      if (n <? 10)%nat then d :: acc
      else digits_fuel fuel' (n / 10)%nat (d :: acc)
  end.
Definition show_nat (n : nat) : pystr := digits_fuel (S n) n [].

(** Format-spec padding: [f"{x: >w}"] / [f"{n:w}"] (right aligned) and
    [f"{x: <w}"] / [f"{n:<w}"] (left aligned); never truncates. *)
Definition pad_left (w : nat) (s : pystr) : pystr :=
  replicate (w - length s) 32 ++ s.
Definition pad_right (w : nat) (s : pystr) : pystr :=
  s ++ replicate (w - length s) 32.

(** The ellipsis character U+2026. *)
Definition ellipsis : Z := 8230.

(** [right(n, x)] of collectors.py: keep a long string's suffix,
    [x[-(n - 1):]]; for [n = 1] the slice is [x[-0:]], the whole of [x],
    and for [n = 0] it is [x[1:]]. *)
Definition right (n : nat) (x : pystr) : pystr :=
  if (length x <? n)%nat then x
  else ellipsis :: match n with
                   | O => drop 1 x
                   | 1%nat => x
                   | S m => drop (length x - m) x
                   end.

(** [left(n, x)] of collectors.py: keep a long string's prefix,
    [x[:(n - 1)]]; for [n = 0] the slice is [x[:-1]]. *)
Definition left (n : nat) (x : pystr) : pystr :=
  if (length x <? n)%nat then x
  else match n with
       | O => take (length x - 1) x
       | S m => take m x
       end ++ [ellipsis].

(** [os.path.join(a, b)] (posixpath, two arguments). *)
Definition os_path_join (a b : pystr) : pystr :=
  if starts_with (lit "/") b then b
  else if bool_decide (a = []) || ends_with (lit "/") a then a ++ b
  else a ++ lit "/" ++ b.

(** Index just after the last occurrence of [c] in [s], 0 if none
    ([s.rfind(c) + 1]). *)
Fixpoint rfind_after (c : Z) (s : pystr) (i : nat) (best : nat) : nat :=
  match s with
  | [] => best
  | d :: s' => rfind_after c s' (S i) (if d =? c then S i else best)
  end.

(** [os.path.dirname(p)] (posixpath):
    [head = p[:p.rfind("/") + 1]], right-stripped of slashes unless it
    consists of slashes only. *)
Definition dirname (p : pystr) : pystr :=
  let head := take (rfind_after 47 p 0 0) p in
  if bool_decide (head <> []) && negb (forallb (Z.eqb 47) head)
  then rstrip_by (Z.eqb 47) head
  else head.

(** [s.rsplit(sep, maxsplit=1)] for a one-character separator. *)
Fixpoint last_index_of (c : Z) (s : pystr) (i : nat) (found : option nat) : option nat :=
  match s with
  | [] => found
  | d :: s' => last_index_of c s' (S i) (if d =? c then Some i else found)
  end.

Definition rsplit1 (c : Z) (s : pystr) : list pystr :=
  match last_index_of c s 0 None with
  | None => [s]
  | Some i => [take i s; drop (S i) s]
  end.

(** ** Exceptions and the result of a Python computation *)

Inductive exn :=
  | ExtractionError      (* PIL could not open or parse the file *)
  | UnicodeDecodeError
  | IndexError
  | AssertionError
  | AttributeError
  | TypeError.

Inductive Res (A : Type) : Type :=
  | Ok (a : A)
  | Err (e : exn).
Arguments Ok {A} a.
Arguments Err {A} e.

Definition res_bind {A B} (m : Res A) (k : A -> Res B) : Res B :=
  match m with
  | Ok a => k a
  | Err e => Err e
  end.

Notation "'let*' x := m 'in' k" := (res_bind m (fun x => k))
  (at level 200, x name, m at level 100, k at level 200).

(** ** UTF-8 decoding: [bytes.decode()] with the strict error handler *)

Definition is_cont (b : Z) : bool := (128 <=? b) && (b <? 192).

Fixpoint utf8_decode_z (bs : list Z) : option (list Z) :=
  match bs with
  | [] => Some []
  | b0 :: r =>
      if b0 <? 128 then cons b0 <$> utf8_decode_z r
      else if (194 <=? b0) && (b0 <? 224) then
        match r with
        | b1 :: r1 =>
            if is_cont b1
            then cons ((b0 - 192) * 64 + (b1 - 128)) <$> utf8_decode_z r1
            else None
        | [] => None
        end
      else if (224 <=? b0) && (b0 <? 240) then
        match r with
        | b1 :: b2 :: r2 =>
            let cp := (b0 - 224) * 4096 + (b1 - 128) * 64 + (b2 - 128) in
            if is_cont b1 && is_cont b2 && (2048 <=? cp)
               && negb ((55296 <=? cp) && (cp <=? 57343))
            then cons cp <$> utf8_decode_z r2
            else None
        | _ => None
        end
      else if (240 <=? b0) && (b0 <? 245) then
        match r with
        | b1 :: b2 :: b3 :: r3 =>
            let cp := (b0 - 240) * 262144 + (b1 - 128) * 4096
                      + (b2 - 128) * 64 + (b3 - 128) in
            if is_cont b1 && is_cont b2 && is_cont b3
               && (65536 <=? cp) && (cp <=? 1114111)
            then cons cp <$> utf8_decode_z r3
            else None
        | _ => None
        end
      else None
  end.

Definition decode (bs : list byte) : Res pystr :=
  match utf8_decode_z (map byte_val bs) with
  | Some s => Ok s
  | None => Err UnicodeDecodeError
  end.

(** ** EXIF data as PIL returns it *)

(** Values of EXIF tags: text, raw bytes, numbers and tuples of
    rationals (e.g. the degrees, minutes, seconds of a GPS coordinate). *)
Inductive tagval :=
  | TStr (s : pystr)
  | TBytes (b : list byte)
  | TInt (z : Z)
  | TRats (vs : list (Z * Z)).

(** Python truthiness of a tag value ([not v] is [negb (truthy v)]). *)
Definition truthy (v : tagval) : bool :=
  match v with
  | TStr s => bool_decide (s <> [])
  | TBytes b => bool_decide (b <> [])
  | TInt z => negb (z =? 0)
  | TRats vs => bool_decide (vs <> [])
  end.

(** [not d.get(k)]: an absent tag is [None], which is falsy. *)
Definition get_falsy (d : gmap Z tagval) (k : Z) : bool :=
  match d !! k with
  | None => true
  | Some v => negb (truthy v)
  end.

(** [Image.Exif]: the top-level tags and the sub-IFDs. *)
Record Exif := mkExif {
  base : gmap Z tagval;
  ifds : gmap Z (gmap Z tagval)
}.

(** [e.get_ifd(tag)]: an absent sub-IFD reads as an empty dict. *)
Definition get_ifd (e : Exif) (k : Z) : gmap Z tagval :=
  default ∅ (ifds e !! k).

(** Tag numbers ([ExifTags.Base], [ExifTags.IFD], [ExifTags.GPS]). *)
Definition Make : Z := 271.
Definition Model : Z := 272.
Definition Software : Z := 305.
Definition UserComment : Z := 37510.
Definition IFD_Exif : Z := 34665.
Definition IFD_GPSInfo : Z := 34853.
Definition GPSLatitude : Z := 2.
Definition GPSLongitude : Z := 4.

(** [usercomment_encoding] of workers.py (its keys, in order). *)
Definition usercomment_encoding : list (list byte * pystr) :=
  [(blit "ASCII" ++ [x00; x00; x00], lit "ascii");
   (blit "UNICODE" ++ [x00], lit "unicode");
   (blit "JIS" ++ [x00; x00; x00; x00; x00], lit "jis");
   ([x00; x00; x00; x00; x00; x00; x00; x00], lit "undefined")].

Fixpoint assoc_bytes (k : list byte) (d : list (list byte * pystr)) : option pystr :=
  match d with
  | [] => None
  | (m, v) :: d' => if decide (m = k) then Some v else assoc_bytes k d'
  end.

(** [usercomment_encoding.get(k)] *)
Definition encoding_lookup (k : list byte) : option pystr :=
  assoc_bytes k usercomment_encoding.

(** [v.strip().strip("\x00")] on the value of [e.get(tag, "<UNDEF>")]:
    defined on text; [bytes.strip("\x00")] raises [TypeError] (a [str]
    argument), numbers and tuples have no [strip]. *)
Definition strip_strip_nul (v : tagval) : Res pystr :=
  match v with
  | TStr s => Ok (strip_char 0 (strip s))
  | TBytes _ => Err TypeError
  | TInt _ | TRats _ => Err AttributeError
  end.

(** ** Workers (workers.py) *)

Section Workers.

Variable exif : pystr -> Res Exif.

Definition cams (f : pystr) : Res (pystr * pystr) :=
  let* e := exif f in
  let* maker := strip_strip_nul (default (TStr (lit "<UNDEF>")) (base e !! Make)) in
  let* model := strip_strip_nul (default (TStr (lit "<UNDEF>")) (base e !! Model)) in
  Ok (maker, model).

Definition nocam (f : pystr) : Res pystr :=
  let* e := exif f in
  if get_falsy (base e) Make || get_falsy (base e) Model then Ok f else Ok [].

Definition nogps (f : pystr) : Res pystr :=
  let* e := exif f in
  let gps := get_ifd e IFD_GPSInfo in
  if get_falsy gps GPSLatitude || get_falsy gps GPSLongitude then Ok f else Ok [].

(** ["Hugin" in software]: a substring test on text; on a tuple of
    rationals no element equals the text; [TypeError] on bytes (a [str]
    operand) and numbers. *)
Definition hugin (f : pystr) : Res (pystr * pystr) :=
  let* e := exif f in
  match default (TStr []) (base e !! Software) with
  | TStr software =>
      if contains (lit "Hugin") software then Ok (f, software) else Ok ([], [])
  | TRats _ => Ok ([], [])
  | _ => Err TypeError
  end.

Definition usercomment (f : pystr) : Res (pystr * pystr) :=
  let* e := exif f in
  let ifd := get_ifd e IFD_Exif in
  match ifd !! UserComment with
  | None => Ok ([], [])
  | Some (TStr comment) => Ok (f, comment)
  | Some (TBytes comment) =>
      if bool_decide (is_Some (encoding_lookup (take 8 comment)))
      then let* s := decode (drop 8 comment) in Ok (f, s)
      else let* s := decode comment in Ok (f, s)
  | Some _ => Err AssertionError
  end.

Definition usercomment_std (f : pystr) : Res pystr :=
  let* e := exif f in
  let ifd := get_ifd e IFD_Exif in
  match ifd !! UserComment with
  | None => Ok (lit "no usercomment")
  | Some (TStr _) => Ok (lit "non-compliant (str)")
  | Some (TBytes comment) =>
      Ok (default (lit "non-compliant (non-std bytes)") (encoding_lookup (take 8 comment)))
  | Some _ => Err AssertionError
  end.

Definition nogpsdir_worker (f : pystr) : Res (pystr * bool) :=
  let* e := exif f in
  let gps := get_ifd e IFD_GPSInfo in
  let nogps := get_falsy gps GPSLatitude || get_falsy gps GPSLongitude in
  Ok (dirname f, nogps).

End Workers.

(** [file_ext] reads no metadata: [f.rsplit(".", maxsplit=1)[1]]. *)
Definition file_ext (f : pystr) : Res pystr :=
  match rsplit1 46 f with
  | [_; ext] => Ok ext
  | _ => Err IndexError
  end.

(** ** Sieves (sieves.py; [has_heif] is whether pillow_heif imported) *)

Definition img (has_heif : bool) (f : pystr) : bool :=
  ends_with (lit ".jpg") f || (ends_with (lit ".heic") f && has_heif).

(** The sieve of the [ftypes] mode, [lambda _: True]. *)
Definition any_file (f : pystr) : bool := true.

(** ** Collectors (collectors.py) *)

(** Python string order: lexicographic on code points. *)
Fixpoint str_ltb (a b : pystr) : bool :=
  match a, b with
  | [], [] => false
  | [], _ :: _ => true
  | _ :: _, [] => false
  | x :: a', y :: b' => (x <? y) || ((x =? y) && str_ltb a' b')
  end.
Definition str_leb (a b : pystr) : bool := negb (str_ltb b a).

(** [sorted(xs, key=...)]: a stable sort (insertion after every element
    that is not greater). *)
Fixpoint insert_by {A} (le : A -> A -> bool) (x : A) (l : list A) : list A :=
  match l with
  | [] => [x]
  | y :: l' => if le y x then y :: insert_by le x l' else x :: l
  end.
Definition sort_by {A} (le : A -> A -> bool) (l : list A) : list A :=
  fold_left (fun acc x => insert_by le x acc) l [].

(** A Python [dict] with [str] keys, in insertion order: [dict_upd k g d]
    sets [d[k] = g(d.get(k))], in place when [k] is already a key,
    appended otherwise. *)
Fixpoint dict_upd {V} (k : pystr) (g : option V -> V) (d : list (pystr * V))
    : list (pystr * V) :=
  match d with
  | [] => [(k, g None)]
  | (k', v) :: d' =>
      if decide (k' = k) then (k', g (Some v)) :: d' else (k', v) :: dict_upd k g d'
  end.

(** [async for task in asyncio.as_completed(tasks): x = await task; body]
    where [rs] are the task outcomes in completion order: the first failed
    task met re-raises its exception. *)
Fixpoint consume {T S} (step : S -> T -> S) (acc : S) (rs : list (Res T)) : Res S :=
  match rs with
  | [] => Ok acc
  | Ok t :: rs' => consume step (step acc t) rs'
  | Err e :: _ => Err e
  end.

Definition newline : pystr := [10].

(** [two_level] *)
Definition two_level_step (stat : gmap pystr (gmap pystr nat)) (r : pystr * pystr)
    : gmap pystr (gmap pystr nat) :=
  let '(maker, model) := r in
  let x := default ∅ (stat !! maker) in
  let y := default 0%nat (x !! model) in
  <[maker := <[model := S y]> x]> stat.

Definition two_level_line (maker model : pystr) (n : nat) : pystr :=
  pad_left 25 maker ++ lit " | " ++ pad_left 40 model ++ lit " | "
  ++ pad_right 5 (show_nat n) ++ newline.

Definition sorted_keys {V} (m : gmap pystr V) : list pystr :=
  sort_by str_leb (map fst (map_to_list m)).

(** The rows of the report, in the order of the two nested loops over
    [sorted(stat.keys())] and [sorted(stat[maker].keys())]. *)
Definition two_level_rows (stat : gmap pystr (gmap pystr nat)) : list (pystr * pystr * nat) :=
  flat_map (fun maker =>
    let x := default ∅ (stat !! maker) in
    map (fun model => (maker, model, default 0%nat (x !! model))) (sorted_keys x))
    (sorted_keys stat).

Definition two_level_render (stat : gmap pystr (gmap pystr nat)) : pystr :=
  concat (map (fun '(maker, model, n) => two_level_line maker model n) (two_level_rows stat)).

Definition two_level (rs : list (Res (pystr * pystr))) : Res pystr :=
  let* stat := consume two_level_step ∅ rs in
  Ok (two_level_render stat).

(** [simple_list] *)
Definition simple_list_step (lst : list pystr) (f : pystr) : list pystr :=
  if bool_decide (f <> []) then lst ++ [f] else lst.

Definition simple_list (rs : list (Res pystr)) : Res pystr :=
  let* lst := consume simple_list_step [] rs in
  Ok (join newline lst).

(** [key_value] *)
Definition key_value_step (res : list (pystr * pystr)) (r : pystr * pystr)
    : list (pystr * pystr) :=
  let '(f, s) := r in
  if bool_decide (f <> []) then dict_upd f (fun _ => s) res else res.

Definition key_value_line (kv : pystr * pystr) : pystr :=
  let '(k, v) := kv in
  pad_left 60 (right 60 k) ++ lit " | " ++ pad_right 30 (left 30 (join (lit " ") (split_ws v))).

Definition key_value (rs : list (Res (pystr * pystr))) : Res pystr :=
  let* res := consume key_value_step [] rs in
  Ok (join newline (map key_value_line res)).

(** [nogpsdir]: a directory's counts [(v[True], v[False])]. *)
Definition nogpsdir_step (res : list (pystr * (nat * nat))) (r : pystr * bool)
    : list (pystr * (nat * nat)) :=
  let '(d, nogps) := r in
  dict_upd d (fun o => let '(t, fl) := default (0%nat, 0%nat) o in
                       if nogps then (S t, fl) else (t, S fl)) res.

Definition nogpsdir_rows (res : list (pystr * (nat * nat))) : list (pystr * (nat * nat)) :=
  filter (fun kv => (0 < fst (snd kv))%nat)
    (sort_by (fun a b => Nat.leb (fst (snd a)) (fst (snd b))) res).

Definition nogpsdir_line (kv : pystr * (nat * nat)) : pystr :=
  let '(k, (t, fl)) := kv in
  pad_left 3 (show_nat t) ++ lit " | " ++ pad_left 3 (show_nat fl) ++ lit " | " ++ k.

Definition nogpsdir (rs : list (Res (pystr * bool))) : Res pystr :=
  let* res := consume nogpsdir_step [] rs in
  Ok (join newline (map nogpsdir_line (nogpsdir_rows res))).

(** [stats] *)
Definition stats_step (res : list (pystr * nat)) (v : pystr) : list (pystr * nat) :=
  dict_upd v (fun o => match o with Some c => S c | None => 1%nat end) res.

Definition stats_rows (res : list (pystr * nat)) : list (pystr * nat) :=
  sort_by (fun a b => Nat.leb (snd a) (snd b)) res.

Definition stats_line (kv : pystr * nat) : pystr :=
  let '(k, v) := kv in pad_left 6 (show_nat v) ++ lit " | " ++ k.

Definition stats (rs : list (Res pystr)) : Res pystr :=
  let* res := consume stats_step [] rs in
  Ok (join newline (map stats_line (stats_rows res))).

(** ** The pipeline (__main__.py) *)

(** The inner loop of [main] over one directory's [files]. *)
Fixpoint tasks_in_dir (sieve_f : pystr -> bool) (exclude : list pystr)
    (path : pystr) (files : list pystr) : list pystr :=
  match files with
  | [] => []
  | f :: fs =>
      let ff := os_path_join path f in
      if existsb (fun x => contains x ff) exclude then tasks_in_dir sieve_f exclude path fs
      else if sieve_f ff then ff :: tasks_in_dir sieve_f exclude path fs
      else tasks_in_dir sieve_f exclude path fs
  end.

(** The paths a task is created for, in creation order, over the triples
    [os.walk(root)] yields. *)
Definition tasks_of (sieve_f : pystr -> bool) (exclude : list pystr)
    (walk : list (pystr * list pystr * list pystr)) : list pystr :=
  flat_map (fun '(path, _, files) => tasks_in_dir sieve_f exclude path files) walk.

(** [main]: its outcome (normal return or the exception propagated out of
    [asyncio.run]) and the text it prints.  [complete] gives the order in
    which the tasks complete. *)
Definition main {T} (sieve_f : pystr -> bool) (worker_f : pystr -> Res T)
    (collector_f : list (Res T) -> Res pystr)
    (walk : list (pystr * list pystr * list pystr)) (exclude : list pystr)
    (complete : list pystr -> list pystr) : Res unit * list pystr :=
  let tasks := tasks_of sieve_f exclude walk in
  match collector_f (map worker_f (complete tasks)) with
  | Ok report => (Ok tt, [report])
  | Err e => (Err e, [])
  end.

Inductive mode :=
  | MCams | MNocam | MNogps | MHugin | MUsercomment | MUsercommentStd
  | MNogpsdir | MFtypes.

(** The [modes] table: each mode's (sieve, worker, collector). *)
Definition run_mode (m : mode) (has_heif : bool) (exif : pystr -> Res Exif)
    (walk : list (pystr * list pystr * list pystr)) (exclude : list pystr)
    (complete : list pystr -> list pystr) : Res unit * list pystr :=
  match m with
  | MCams => main (img has_heif) (cams exif) two_level walk exclude complete
  | MNocam => main (img has_heif) (nocam exif) simple_list walk exclude complete
  | MNogps => main (img has_heif) (nogps exif) simple_list walk exclude complete
  | MHugin => main (img has_heif) (hugin exif) key_value walk exclude complete
  | MUsercomment => main (img has_heif) (usercomment exif) key_value walk exclude complete
  | MUsercommentStd => main (img has_heif) (usercomment_std exif) stats walk exclude complete
  | MNogpsdir => main (img has_heif) (nogpsdir_worker exif) nogpsdir walk exclude complete
  | MFtypes => main any_file file_ext stats walk exclude complete
  end.

(** ** Auxiliary definitions for the statements *)

(** [d.get(k)] on a dict modelled by [dict_upd]. *)
Fixpoint dict_get {V} (k : pystr) (d : list (pystr * V)) : option V :=
  match d with
  | [] => None
  | (k', v) :: d' => if decide (k' = k) then Some v else dict_get k d'
  end.

(** The exception a task raised, if any. *)
Definition task_error {T} (r : Res T) : option exn :=
  match r with
  | Ok _ => None
  | Err e => Some e
  end.

(** The sieve of each mode, and the exception (if any) its worker raises
    on a path. *)
Definition mode_sieve (m : mode) (has_heif : bool) : pystr -> bool :=
  match m with
  | MFtypes => any_file
  | _ => img has_heif
  end.

Definition mode_task_error (m : mode) (exif : pystr -> Res Exif) (ff : pystr) : option exn :=
  match m with
  | MCams => task_error (cams exif ff)
  | MNocam => task_error (nocam exif ff)
  | MNogps => task_error (nogps exif ff)
  | MHugin => task_error (hugin exif ff)
  | MUsercomment => task_error (usercomment exif ff)
  | MUsercommentStd => task_error (usercomment_std exif ff)
  | MNogpsdir => task_error (nogpsdir_worker exif ff)
  | MFtypes => task_error (file_ext ff)
  end.

(** Occurrences of [x] in [l]. *)
Definition occurrences {A} `{EqDecision A} (x : A) (l : list A) : nat :=
  length (filter (fun y => y = x) l).

(** ** The older revision (src/ptool.py) *)

(** [NoCam.process] of src/ptool.py: [e.get(Make) == "" or e.get(Model) == ""];
    an absent tag is [None], which is not equal to [""]. *)
Definition legacy_nocam (exif : pystr -> Res Exif) (f : pystr) : Res pystr :=
  let* e := exif f in
  let is_empty_str (v : option tagval) : bool :=
    match v with Some (TStr []) => true | _ => false end in
  if is_empty_str (base e !! Make) || is_empty_str (base e !! Model)
  then Ok f else Ok [].

(** ** Auxiliary definitions for the further properties *)

(** UTF-8 encoding of one code point, [chr(c).encode()]. *)
Definition utf8_encode_cp (c : Z) : list Z :=
  if c <? 128 then [c]
  else if c <? 2048 then [192 + c / 64; 128 + c mod 64]
  else if c <? 65536 then [224 + c / 4096; 128 + (c / 64) mod 64; 128 + c mod 64]
  else [240 + c / 262144; 128 + (c / 4096) mod 64; 128 + (c / 64) mod 64; 128 + c mod 64].

(** [s.encode()] *)
Definition utf8_encode (s : pystr) : list Z := flat_map utf8_encode_cp s.

(** A Unicode scalar value: a code point that is not a surrogate. *)
Definition scalar (c : Z) : Prop := 0 <= c <= 1114111 /\ ~ (55296 <= c <= 57343).

(** The order of the two_level rows: by maker, then by model. *)
Definition row_lt (a b : pystr * pystr * nat) : Prop :=
  str_ltb a.1.1 b.1.1 = true \/ (a.1.1 = b.1.1 /\ str_ltb a.1.2 b.1.2 = true).

(** A directory path without its trailing slashes (kept when it is made
    of slashes only). *)
Definition dir_norm (p : pystr) : pystr :=
  if forallb (Z.eqb 47) p then p else rstrip_by (Z.eqb 47) p.

(** The labels usercomment_std returns. *)
Definition usercomment_std_labels : list pystr :=
  [lit "no usercomment"; lit "non-compliant (str)"; lit "non-compliant (non-std bytes)"]
  ++ map snd usercomment_encoding.

(** ** Concrete inputs and measures used in the statements *)



Definition usercomment_exif : Exif :=
  mkExif ∅ {[IFD_Exif := {[UserComment := TBytes (blit "ASCII" ++ [x00; x00; x00] ++ blit "Hello")]}]}.

Definition nocam_exif : Exif := mkExif {[Make := TStr (lit "Canon")]} ∅.

Definition nul_maker_exif : Exif :=
  mkExif {[Make := TStr (lit "Ca" ++ [0] ++ lit "non"); Model := TStr (lit " EOS 5D ")]} ∅.

(** A Make value whose ends alternate NUL and space: ["\x00 Canon \x00"]. *)
Definition interleaved_exif : Exif :=
  mkExif {[Make := TStr ([0] ++ lit " Canon " ++ [0])]} ∅.

Definition ftypes_walk : list (pystr * list pystr * list pystr) :=
  [(lit "/root", [], [lit "README"; lit "a.jpg"])].

Definition failing_walk : list (pystr * list pystr * list pystr) :=
  [(lit "/root", [], [lit "a.jpg"; lit "b.jpg"])].

Definition failing_exif (f : pystr) : Res Exif :=
  if decide (f = lit "/root/b.jpg") then Err ExtractionError else Ok (mkExif ∅ ∅).

Definition skip_walk : list (pystr * list pystr * list pystr) :=
  [(lit "/root", [lit "skip"; lit "keep"], []);
   (lit "/root/skip", [], [lit "a.jpg"]);
   (lit "/root/keep", [], [lit "b.jpg"])].

(** The same tree without [/root/skip/a.jpg]. *)
Definition keep_walk : list (pystr * list pystr * list pystr) :=
  [(lit "/root", [lit "keep"], []);
   (lit "/root/keep", [], [lit "b.jpg"])].

Definition count_le (a b : pystr * nat) : Prop := (snd a <= snd b)%nat.

Definition dir_le (a b : pystr * (nat * nat)) : Prop := (fst (snd a) <= fst (snd b))%nat.

(** The sum of [w v] over the entries [(k, v)] of a map. *)
Definition wsum {V} (w : V -> nat) (m : gmap pystr V) : nat :=
  sum_list_with (fun kv => w kv.2) (map_to_list m).

Definition cell_total (x : gmap pystr nat) : nat := wsum (fun n => n) x.

Definition cams_walk : list (pystr * list pystr * list pystr) :=
  [(lit "/p", [], [lit "a.jpg"; lit "b.jpg"; lit "notes.txt"])].

Definition cams_exif (f : pystr) : Res Exif :=
  if decide (f = lit "/p/a.jpg")
  then Ok (mkExif {[Make := TStr (lit "Canon"); Model := TStr (lit "EOS")]} ∅)
  else Ok (mkExif ∅ ∅).

(** ** Small executable checks of the model *)

Example show_nat_ex : show_nat 1234 = lit "1234".
Proof. reflexivity. Qed.

Example strip_ex : strip_char 0 (strip (lit "  Canon ")) = lit "Canon".
Proof. reflexivity. Qed.

Example dirname_ex : dirname (lit "/root/keep/b.jpg") = lit "/root/keep".
Proof. reflexivity. Qed.

Example join_ex : os_path_join (lit "/root/keep") (lit "b.jpg") = lit "/root/keep/b.jpg".
Proof. reflexivity. Qed.

Example file_ext_ex : file_ext (lit "a.b.jpg") = Ok (lit "jpg").
Proof. reflexivity. Qed.

Example split_ex : join (lit " ") (split_ws (lit "  a  b c ")) = lit "a b c".
Proof. reflexivity. Qed.

Example utf8_ex : decode [xc3; xa9] = Ok [233].
Proof. reflexivity. Qed.

Example stats_ex : stats [Ok (lit "a"); Ok (lit "b"); Ok (lit "a")]
  = Ok (lit "     1 | b" ++ newline ++ lit "     2 | a").
Proof. reflexivity. Qed.

(** ** UserComment decoding *)

Lemma assoc_bytes_is_Some (k : list byte) (d : list (list byte * pystr)) :
  is_Some (assoc_bytes k d) <-> k ∈ map fst d.
Proof.
  induction d as [|[m v] d IH]; simpl.
  - split; [intros [? H]; discriminate | intros H; inversion H].
  - rewrite elem_of_cons. case_decide as Hm.
    + subst. split; [by left | intros _; eauto].
    + rewrite IH. split; [by right | intros [->|H]; [congruence | exact H]].
Qed.

Lemma encoding_lookup_is_Some (k : list byte) :
  is_Some (encoding_lookup k) <-> k ∈ map fst usercomment_encoding.
Proof. apply assoc_bytes_is_Some. Qed.

(** C2: a text UserComment is returned unchanged; a byte UserComment whose
    first 8 bytes are one of the four code markers is decoded after
    dropping them; any other byte UserComment is decoded whole; in
    particular [b"ASCII\0\0\0Hello"] and [b"Hello"] both give ["Hello"]. *)
Theorem usercomment_decoding (exif : pystr -> Res Exif) (f : pystr) (e : Exif) (v : tagval)
    (He : exif f = Ok e) (Hv : get_ifd e IFD_Exif !! UserComment = Some v) :
  (forall s, v = TStr s -> usercomment exif f = Ok (f, s)) /\
  (forall b, v = TBytes b -> take 8 b ∈ map fst usercomment_encoding ->
     usercomment exif f = (let* s := decode (drop 8 b) in Ok (f, s))) /\
  (forall b, v = TBytes b -> take 8 b ∉ map fst usercomment_encoding ->
     usercomment exif f = (let* s := decode b in Ok (f, s))) /\
  (v = TBytes (blit "ASCII" ++ [x00; x00; x00] ++ blit "Hello") ->
     usercomment exif f = Ok (f, lit "Hello")) /\
  (v = TBytes (blit "Hello") -> usercomment exif f = Ok (f, lit "Hello")).
Proof.
  unfold usercomment. rewrite He. simpl. rewrite Hv.
  split; [intros s ->; reflexivity|].
  split; [intros b -> Hb; rewrite bool_decide_true; [reflexivity|];
          apply encoding_lookup_is_Some, Hb|].
  split; [intros b -> Hb; rewrite bool_decide_false; [reflexivity|];
          rewrite encoding_lookup_is_Some; exact Hb|].
  split; intros ->; reflexivity.
Qed.

Lemma usercomment_decoding_witness :
  (fun _ : pystr => Ok usercomment_exif) (lit "a.jpg") = Ok usercomment_exif /\
  get_ifd usercomment_exif IFD_Exif !! UserComment
    = Some (TBytes (blit "ASCII" ++ [x00; x00; x00] ++ blit "Hello")) /\
  usercomment (fun _ => Ok usercomment_exif) (lit "a.jpg") = Ok (lit "a.jpg", lit "Hello").
Proof.
  split; [reflexivity|]. split; [reflexivity|].
  destruct (usercomment_decoding (fun _ => Ok usercomment_exif) (lit "a.jpg") usercomment_exif
           (TBytes (blit "ASCII" ++ [x00; x00; x00] ++ blit "Hello")) eq_refl eq_refl)
    as (_ & _ & _ & Hascii & _).
  exact (Hascii eq_refl).
Defined.

(** ** Consuming task outcomes *)

Section Consume.

Context {T S : Type} (step : S -> T -> S).

Lemma consume_map_Ok (acc : S) (ts : list T) :
  consume step acc (map Ok ts) = Ok (fold_left step ts acc).
Proof. revert acc; induction ts as [|t ts IH]; intros acc; simpl; auto. Qed.

Lemma consume_Err_elem (acc : S) (rs : list (Res T)) (e : exn) :
  consume step acc rs = Err e -> Err e ∈ rs.
Proof.
  revert acc; induction rs as [|[t|e'] rs IH]; intros acc H; simpl in H.
  - discriminate.
  - apply elem_of_cons; right; exact (IH _ H).
  - injection H as ->. apply elem_of_cons; left; reflexivity.
Qed.

Lemma consume_some_Err (acc : S) (rs : list (Res T)) (e0 : exn) :
  Err e0 ∈ rs -> exists e, consume step acc rs = Err e.
Proof.
  revert acc; induction rs as [|[t|e'] rs IH]; intros acc H; simpl.
  - inversion H.
  - apply elem_of_cons in H as [H|H]; [discriminate|exact (IH _ H)].
  - eauto.
Qed.

(** The exception raised is the one of the first failed task consumed. *)
Lemma consume_first_Err (acc : S) (pre post : list (Res T)) (e : exn) :
  Forall (fun r => task_error r = None) pre ->
  consume step acc (pre ++ Err e :: post) = Err e.
Proof.
  intros Hpre. revert acc; induction Hpre as [|r pre Hr Hpre IH]; intros acc; simpl.
  - reflexivity.
  - destruct r as [t|e']; [apply IH | discriminate].
Qed.

End Consume.

(** [let* x := consume ... in Ok (render x)] fails exactly like [consume]. *)
Lemma bind_Err {A B} (m : Res A) (k : A -> B) (e : exn) :
  m = Err e -> (let* x := m in Ok (k x)) = Err e.
Proof. intros ->; reflexivity. Qed.

Lemma bind_Ok_inv {A B} (m : Res A) (k : A -> B) (b : B) :
  (let* x := m in Ok (k x)) = Ok b -> exists a, m = Ok a /\ b = k a.
Proof. destruct m as [a|e]; simpl; intros H; [injection H as <-; eauto | discriminate]. Qed.

Lemma first_failure {A} (err : A -> option exn) (l : list A) (x0 : A) (e0 : exn) :
  x0 ∈ l -> err x0 = Some e0 ->
  exists pre x e post, l = pre ++ x :: post /\ err x = Some e /\
    Forall (fun y => err y = None) pre.
Proof.
  induction l as [|y l IH]; intros Hin Hx0; [inversion Hin|].
  destruct (err y) as [e|] eqn:Hy.
  - exists [], y, e, l. repeat split; auto.
  - apply elem_of_cons in Hin as [->|Hin]; [congruence|].
    destruct (IH Hin Hx0) as (pre & x & e & post & -> & Hx & Hpre).
    exists (y :: pre), x, e, post. repeat split; auto.
Qed.

(** ** nocam *)

Lemma simple_list_keeps (acc : list pystr) (rs : list (Res pystr)) (lst : list pystr) :
  consume simple_list_step acc rs = Ok lst ->
  (forall x, x ∈ acc -> x ∈ lst) /\
  (forall f, Ok f ∈ rs -> f <> [] -> f ∈ lst).
Proof.
  revert acc; induction rs as [|[t|e] rs IH]; intros acc H; simpl in H.
  - injection H as <-. split; [auto | intros f Hf; inversion Hf].
  - destruct (IH _ H) as [Hacc Hrs]. split.
    + intros x Hx. apply Hacc. unfold simple_list_step.
      case_bool_decide; [apply elem_of_app; left|]; exact Hx.
    + intros f Hf Hne. apply elem_of_cons in Hf as [Hf|Hf].
      * injection Hf as ->. apply Hacc. unfold simple_list_step.
        rewrite bool_decide_true by exact Hne. apply elem_of_app; right; constructor.
      * exact (Hrs f Hf Hne).
  - discriminate.
Qed.

Lemma get_falsy_spec (d : gmap Z tagval) (k : Z) :
  get_falsy d k = true <-> d !! k = None \/ exists v, d !! k = Some v /\ truthy v = false.
Proof.
  unfold get_falsy. destruct (d !! k) as [v|].
  - rewrite negb_true_iff. split; [intros H; right; eauto | intros [H|(w & Hw & H)]; congruence].
  - split; [auto | auto].
Qed.

(** C4: for a file whose metadata was read, nocam returns the path exactly
    when Make or Model is absent or empty (falsy), and [""] exactly when
    both are present and non-empty; the path then appears in the list the
    simple_list collector builds. *)
Theorem nocam_flags_missing_camera (exif : pystr -> Res Exif) (f : pystr) (e : Exif)
    (He : exif f = Ok e) (Hf : f <> []) :
  (nocam exif f = Ok f <->
     (base e !! Make = None \/ exists v, base e !! Make = Some v /\ truthy v = false) \/
     (base e !! Model = None \/ exists v, base e !! Model = Some v /\ truthy v = false)) /\
  (nocam exif f = Ok [] <->
     (exists v, base e !! Make = Some v /\ truthy v = true) /\
     (exists v, base e !! Model = Some v /\ truthy v = true)) /\
  (forall rs lst, nocam exif f = Ok f -> nocam exif f ∈ rs ->
     consume simple_list_step [] rs = Ok lst -> f ∈ lst).
Proof.
  assert (Hmiss : forall k, get_falsy (base e) k = false <->
            exists v, base e !! k = Some v /\ truthy v = true).
  { intros k. unfold get_falsy. destruct (base e !! k) as [v|].
    - rewrite negb_false_iff. split; [eauto | intros (w & Hw & H); congruence].
    - split; [discriminate | intros (w & Hw & _); discriminate]. }
  unfold nocam. rewrite He. simpl. split; [|split].
  - rewrite <- !get_falsy_spec.
    destruct (get_falsy (base e) Make), (get_falsy (base e) Model); simpl;
      split; auto; intros H; [congruence | destruct H as [H|H]; discriminate].
  - rewrite <- !Hmiss.
    destruct (get_falsy (base e) Make), (get_falsy (base e) Model); simpl;
      split; try (intros H; congruence); try (intros [H1 H2]; discriminate); auto.
  - intros rs lst Hok Hin Hc. rewrite Hok in Hin.
    exact (proj2 (simple_list_keeps [] rs lst Hc) f Hin Hf).
Qed.

Lemma nocam_flags_missing_camera_witness :
  (fun _ : pystr => Ok nocam_exif) (lit "a.jpg") = Ok nocam_exif /\ lit "a.jpg" <> [] /\
  nocam (fun _ => Ok nocam_exif) (lit "a.jpg") = Ok (lit "a.jpg").
Proof.
  split; [reflexivity|]. split; [discriminate|].
  destruct (nocam_flags_missing_camera (fun _ => Ok nocam_exif) (lit "a.jpg") nocam_exif
              eq_refl ltac:(discriminate)) as [Hflag _].
  apply Hflag. right; left; reflexivity.
Defined.

(** ** cams normalisation *)

Lemma lstrip_by_split (p : Z -> bool) (s : pystr) :
  exists pre, s = pre ++ lstrip_by p s /\ Forall (fun c => p c = true) pre.
Proof.
  induction s as [|c s IH]; simpl; [exists []; auto|].
  destruct (p c) eqn:Hc.
  - destruct IH as (pre & Hs & Hpre). exists (c :: pre). simpl; rewrite <- Hs; auto.
  - exists []; auto.
Qed.

Lemma rstrip_by_split (p : Z -> bool) (s : pystr) :
  exists suf, s = rstrip_by p s ++ suf /\ Forall (fun c => p c = true) suf.
Proof.
  destruct (lstrip_by_split p (rev s)) as (pre & Hs & Hpre).
  exists (rev pre). unfold rstrip_by. split.
  - rewrite <- rev_app_distr, <- Hs, rev_involutive. reflexivity.
  - apply Forall_rev, Hpre.
Qed.

(** [s.strip().strip("\x00")] only removes whitespace and NUL characters
    at the two ends of [s]. *)
Lemma strip_strip_nul_infix (s : pystr) :
  exists p q, s = p ++ strip_char 0 (strip s) ++ q /\
    Forall (fun c => is_space c = true \/ c = 0) p /\
    Forall (fun c => is_space c = true \/ c = 0) q.
Proof.
  destruct (lstrip_by_split is_space s) as (p1 & H1 & Hp1).
  destruct (rstrip_by_split is_space (lstrip_by is_space s)) as (q1 & H2 & Hq1).
  set (t := strip s).
  destruct (lstrip_by_split (Z.eqb 0) t) as (p2 & H3 & Hp2).
  destruct (rstrip_by_split (Z.eqb 0) (lstrip_by (Z.eqb 0) t)) as (q2 & H4 & Hq2).
  exists (p1 ++ p2), (q2 ++ q1). split; [|split].
  - unfold strip_char. rewrite H1 at 1. rewrite H2. fold (strip s). fold t.
    rewrite H3 at 1. rewrite H4 at 1. rewrite !app_assoc. reflexivity.
  - apply Forall_app; split.
    + eapply Forall_impl; [exact Hp1|]; intros c Hc; left; exact Hc.
    + eapply Forall_impl; [exact Hp2|]; intros c Hc; right; symmetry; apply Z.eqb_eq, Hc.
  - apply Forall_app; split.
    + eapply Forall_impl; [exact Hq2|]; intros c Hc; right; symmetry; apply Z.eqb_eq, Hc.
    + eapply Forall_impl; [exact Hq1|]; intros c Hc; left; exact Hc.
Qed.

(** C5 (counterexample): a Make value ["\x00 Canon \x00"], with NUL
    and space alternating at each end, comes out of cams as [" Canon "]:
    [strip()] stops at the NULs and [strip("\x00")] then uncovers the
    spaces, which stay. Trimming whitespace and NUL characters gives
    ["Canon"]. *)
Lemma cams_trim_fails_interleaved :
  cams (fun _ => Ok interleaved_exif) (lit "a.jpg")
    = Ok (lit " Canon ", lit "<UNDEF>") /\
  trim_ws_nul ([0] ++ lit " Canon " ++ [0]) = lit "Canon" /\
  lit " Canon " <> lit "Canon".
Proof.
  split; [reflexivity|]. split; [reflexivity|]. discriminate.
Qed.

(** C5 (what cams computes): when the Make and Model values are text or
    absent, cams returns [(maker, model)] where an absent tag gives
    ["<UNDEF>"] and a present value [s] gives [s.strip().strip("\x00")]:
    [s] minus some leading and trailing whitespace and NUL characters. This
    two-pass strip differs from trimming when NUL and whitespace alternate
    at an end. *)
Theorem cams_normalises (exif : pystr -> Res Exif) (f : pystr) (e : Exif)
    (smk smd : option pystr) (He : exif f = Ok e)
    (Hmk : base e !! Make = TStr <$> smk) (Hmd : base e !! Model = TStr <$> smd) :
  exists maker model, cams exif f = Ok (maker, model) /\
    (smk = None -> maker = lit "<UNDEF>") /\
    (smd = None -> model = lit "<UNDEF>") /\
    (forall s, smk = Some s -> maker = strip_char 0 (strip s) /\
       exists p q, s = p ++ maker ++ q /\
         Forall (fun c => is_space c = true \/ c = 0) p /\
         Forall (fun c => is_space c = true \/ c = 0) q) /\
    (forall s, smd = Some s -> model = strip_char 0 (strip s) /\
       exists p q, s = p ++ model ++ q /\
         Forall (fun c => is_space c = true \/ c = 0) p /\
         Forall (fun c => is_space c = true \/ c = 0) q).
Proof.
  unfold cams. rewrite He. simpl. rewrite Hmk, Hmd.
  destruct smk as [smk|], smd as [smd|]; simpl;
    eexists _, _; (split; [reflexivity|]);
    (split; [intros H; (discriminate || reflexivity)|]);
    (split; [intros H; (discriminate || reflexivity)|]);
    split; intros s Hs;
    (discriminate || (injection Hs as <-; split; [reflexivity | apply strip_strip_nul_infix])).
Qed.

Lemma cams_normalises_witness :
  (fun _ : pystr => Ok nul_maker_exif) (lit "a.jpg") = Ok nul_maker_exif /\
  base nul_maker_exif !! Make = TStr <$> Some (lit "Ca" ++ [0] ++ lit "non") /\
  base nul_maker_exif !! Model = TStr <$> Some (lit " EOS 5D ") /\
  exists maker model, cams (fun _ => Ok nul_maker_exif) (lit "a.jpg") = Ok (maker, model).
Proof.
  split; [reflexivity|]. split; [reflexivity|]. split; [reflexivity|].
  destruct (cams_normalises (fun _ => Ok nul_maker_exif) (lit "a.jpg") nul_maker_exif
              (Some (lit "Ca" ++ [0] ++ lit "non")) (Some (lit " EOS 5D "))
              eq_refl eq_refl eq_refl) as (maker & model & Hc & _).
  exists maker, model. exact Hc.
Defined.

(** ** ftypes *)

Lemma last_index_of_absent (c : Z) (s : pystr) (i : nat) (found : option nat) :
  c ∉ s -> last_index_of c s i found = found.
Proof.
  revert i found; induction s as [|d s IH]; intros i found Hc; simpl; [reflexivity|].
  apply not_elem_of_cons in Hc as [Hcd Hc].
  rewrite (proj2 (Z.eqb_neq d c)) by congruence. apply IH, Hc.
Qed.

Lemma file_ext_dotless (f : pystr) : 46 ∉ f -> file_ext f = Err IndexError.
Proof.
  intros Hf. unfold file_ext, rsplit1. rewrite last_index_of_absent by exact Hf.
  reflexivity.
Qed.

Lemma file_ext_Err (f : pystr) (e : exn) : file_ext f = Err e -> e = IndexError.
Proof.
  unfold file_ext. destruct (rsplit1 46 f) as [|x [|y [|z l]]]; intros H;
    congruence.
Qed.

(** C10: the ftypes sieve accepts every file, [file_ext] raises
    [IndexError] on a path without ["."], and a run of the ftypes mode over
    a tree holding such a path ends with [IndexError], printing nothing. *)
Theorem ftypes_worker_not_total (has_heif : bool) (exif : pystr -> Res Exif)
    (walk : list (pystr * list pystr * list pystr)) (exclude : list pystr)
    (complete : list pystr -> list pystr)
    (Hperm : complete (tasks_of any_file exclude walk) ≡ₚ tasks_of any_file exclude walk)
    (Hdotless : exists ff, ff ∈ tasks_of any_file exclude walk /\ 46 ∉ ff) :
  (forall ff, any_file ff = true) /\
  (forall ff, 46 ∉ ff -> file_ext ff = Err IndexError) /\
  run_mode MFtypes has_heif exif walk exclude complete = (Err IndexError, []).
Proof.
  split; [reflexivity|]. split; [exact file_ext_dotless|].
  destruct Hdotless as (ff & Hin & Hff).
  simpl. unfold main.
  set (l := complete (tasks_of any_file exclude walk)) in *.
  assert (Herr : Err IndexError ∈ map file_ext l).
  { rewrite <- (file_ext_dotless ff Hff). apply list_elem_of_fmap_2.
    rewrite Hperm. exact Hin. }
  destruct (consume_some_Err stats_step [] _ _ Herr) as [e He].
  pose proof (consume_Err_elem stats_step [] _ _ He) as Hin'.
  apply list_elem_of_fmap_1 in Hin' as (g & Hg & _).
  symmetry in Hg. apply file_ext_Err in Hg as ->.
  unfold stats. rewrite He. reflexivity.
Qed.

Lemma ftypes_worker_not_total_witness :
  run_mode MFtypes false (fun _ => Err ExtractionError) ftypes_walk [] (fun l => l)
    = (Err IndexError, []).
Proof.
  refine (proj2 (proj2 (ftypes_worker_not_total false (fun _ => Err ExtractionError)
                         ftypes_walk [] (fun l => l) _ _))).
  - reflexivity.
  - exists (lit "/root/README"). split.
    + left.
    + vm_compute. intros H. repeat (apply elem_of_cons in H as [H|H]; [discriminate|]).
      inversion H.
Defined.

(** ** A failed task aborts the run *)

Lemma collector_first_Err {T U} (w : pystr -> Res T) (step : U -> T -> U) (acc : U)
    (render : U -> pystr) (pre post : list pystr) (ff : pystr) (e : exn) :
  Forall (fun g => task_error (w g) = None) pre -> task_error (w ff) = Some e ->
  (let* x := consume step acc (map w (pre ++ ff :: post)) in Ok (render x)) = Err e.
Proof.
  intros Hpre Hff. apply bind_Err. rewrite map_app. simpl.
  destruct (w ff) as [t|e']; simpl in Hff; [discriminate|injection Hff as ->].
  apply consume_first_Err. apply Forall_map. exact Hpre.
Qed.

(** C8: when some task of the run raises, the run ends with the exception
    of the first failed task in completion order (the collector re-raises
    it when it consumes that task) and prints nothing. *)
Theorem failed_task_aborts_run (m : mode) (has_heif : bool) (exif : pystr -> Res Exif)
    (walk : list (pystr * list pystr * list pystr)) (exclude : list pystr)
    (complete : list pystr -> list pystr) (ff0 : pystr) (e0 : exn)
    (Hperm : complete (tasks_of (mode_sieve m has_heif) exclude walk)
               ≡ₚ tasks_of (mode_sieve m has_heif) exclude walk)
    (Hin : ff0 ∈ tasks_of (mode_sieve m has_heif) exclude walk)
    (Hfail : mode_task_error m exif ff0 = Some e0) :
  exists pre ff e post,
    complete (tasks_of (mode_sieve m has_heif) exclude walk) = pre ++ ff :: post /\
    Forall (fun g => mode_task_error m exif g = None) pre /\
    mode_task_error m exif ff = Some e /\
    run_mode m has_heif exif walk exclude complete = (Err e, []).
Proof.
  rewrite <- Hperm in Hin.
  destruct (first_failure (mode_task_error m exif) _ ff0 e0 Hin Hfail)
    as (pre & ff & e & post & Hl & Hff & Hpre).
  exists pre, ff, e, post. split; [exact Hl|]. split; [exact Hpre|]. split; [exact Hff|].
  destruct m; simpl in *; unfold main; rewrite Hl;
    [ unfold two_level | unfold simple_list | unfold simple_list | unfold key_value
    | unfold key_value | unfold stats | unfold nogpsdir | unfold stats ];
    rewrite (collector_first_Err _ _ _ _ pre post ff e Hpre Hff); reflexivity.
Qed.

Lemma failed_task_aborts_run_witness :
  run_mode MCams false failing_exif failing_walk [] (fun l => l) = (Err ExtractionError, []).
Proof.
  destruct (failed_task_aborts_run MCams false failing_exif failing_walk [] (fun l => l)
              (lit "/root/b.jpg") ExtractionError ltac:(reflexivity)
              ltac:(right; left) ltac:(reflexivity))
    as (pre & ff & e & post & _ & _ & _ & Hrun).
  rewrite Hrun. vm_compute in Hrun. injection Hrun as <-. reflexivity.
Defined.

(** ** Exclusion filter *)

Lemma tasks_in_dir_filter (sieve_f : pystr -> bool) (exclude : list pystr)
    (path : pystr) (files : list pystr) :
  tasks_in_dir sieve_f exclude path files =
    filter (fun ff => existsb (fun x => contains x ff) exclude = false /\ sieve_f ff = true)
      (map (os_path_join path) files).
Proof.
  induction files as [|f files IH]; simpl; [reflexivity|].
  rewrite filter_cons.
  destruct (existsb (fun x => contains x (os_path_join path f)) exclude) eqn:Hx,
           (sieve_f (os_path_join path f)) eqn:Hs;
    rewrite IH; repeat case_decide; intuition congruence.
Qed.

(** C9: the tasks are exactly the enumerated joined paths that contain no
    exclusion substring and pass the sieve, one per enumerated path, in
    enumeration order; scanning [/root] holding [/root/skip/a.jpg] and
    [/root/keep/b.jpg] with exclusion ["skip"] creates the single task
    [/root/keep/b.jpg], and every mode's run (outcome and printed report)
    is the one of the same tree without [a.jpg]. *)
Theorem exclusion_filter (sieve_f : pystr -> bool) (exclude : list pystr)
    (walk : list (pystr * list pystr * list pystr)) :
  tasks_of sieve_f exclude walk =
    filter (fun ff => existsb (fun x => contains x ff) exclude = false /\ sieve_f ff = true)
      (flat_map (fun '(path, _, files) => map (os_path_join path) files) walk) /\
  (forall has_heif, tasks_of (img has_heif) [lit "skip"] skip_walk = [lit "/root/keep/b.jpg"]) /\
  tasks_of any_file [lit "skip"] skip_walk = [lit "/root/keep/b.jpg"] /\
  (forall m has_heif exif complete,
     run_mode m has_heif exif skip_walk [lit "skip"] complete
     = run_mode m has_heif exif keep_walk [] complete).
Proof.
  split; [|split; [|split]].
  - induction walk as [|[[path dirs] files] walk IH]; simpl; [reflexivity|].
    rewrite filter_app, IH, tasks_in_dir_filter. reflexivity.
  - intros []; reflexivity.
  - reflexivity.
  - intros m [] exif complete; destruct m; reflexivity.
Qed.

(** ** Arrival order *)

Lemma fold_left_perm_comm {A B} (f : A -> B -> A)
    (Hcomm : forall a x y, f (f a x) y = f (f a y) x) (l l' : list B) (acc : A) :
  l ≡ₚ l' -> fold_left f l acc = fold_left f l' acc.
Proof.
  intros Hp. revert acc. induction Hp as [|x l l' Hp IH|x y l|l l' l'' _ IH1 _ IH2];
    intros acc; simpl.
  - reflexivity.
  - apply IH.
  - rewrite Hcomm. reflexivity.
  - rewrite IH1. apply IH2.
Qed.

Lemma two_level_step_comm (stat : gmap pystr (gmap pystr nat)) (a b : pystr * pystr) :
  two_level_step (two_level_step stat a) b = two_level_step (two_level_step stat b) a.
Proof.
  destruct a as [m1 d1], b as [m2 d2]. unfold two_level_step.
  destruct (decide (m1 = m2)) as [<-|Hm].
  - rewrite !lookup_insert_eq, !insert_insert_eq. simpl. f_equal.
    set (x := default ∅ (stat !! m1)).
    destruct (decide (d1 = d2)) as [<-|Hd]; [reflexivity|].
    rewrite !lookup_insert_ne by congruence. apply insert_insert_ne. congruence.
  - rewrite !lookup_insert_ne by congruence. apply insert_insert_ne. congruence.
Qed.

Lemma two_level_perm (rs rs' : list (pystr * pystr)) :
  rs ≡ₚ rs' -> two_level (map Ok rs) = two_level (map Ok rs').
Proof.
  intros Hp. unfold two_level. rewrite !consume_map_Ok.
  rewrite (fold_left_perm_comm two_level_step two_level_step_comm rs rs' ∅ Hp).
  reflexivity.
Qed.

(** *** Dicts in insertion order *)

Section Dict.

Context {V : Type}.

Lemma dict_get_upd (k k' : pystr) (g : option V -> V) (d : list (pystr * V)) :
  dict_get k (dict_upd k' g d) =
    if decide (k' = k) then Some (g (dict_get k' d)) else dict_get k d.
Proof.
  induction d as [|[k0 v] d IH]; simpl.
  - repeat case_decide; congruence.
  - destruct (decide (k0 = k')) as [->|H0]; simpl.
    + repeat case_decide; congruence.
    + rewrite IH. repeat case_decide; congruence.
Qed.

Lemma dict_keys_upd (k x : pystr) (g : option V -> V) (d : list (pystr * V)) :
  x ∈ map fst (dict_upd k g d) <-> x = k \/ x ∈ map fst d.
Proof.
  induction d as [|[k0 v] d IH]; simpl.
  - rewrite elem_of_cons. split; [intros [H|H]; [auto|inversion H] | intros [H|H]; [auto|inversion H]].
  - case_decide as H0; simpl; rewrite !elem_of_cons; [|rewrite IH]; subst; tauto.
Qed.

Lemma dict_upd_NoDup (k : pystr) (g : option V -> V) (d : list (pystr * V)) :
  NoDup (map fst d) -> NoDup (map fst (dict_upd k g d)).
Proof.
  induction d as [|[k0 v] d IH]; simpl; intros Hd.
  - constructor; [intros H; inversion H | constructor].
  - apply NoDup_cons in Hd as [Hk0 Hd]. case_decide; simpl.
    + constructor; assumption.
    + constructor; [|exact (IH Hd)]. rewrite dict_keys_upd. intuition congruence.
Qed.

Lemma dict_upd_fresh (k : pystr) (g : option V -> V) (d : list (pystr * V)) :
  k ∉ map fst d -> dict_upd k g d = d ++ [(k, g None)].
Proof.
  induction d as [|[k0 v] d IH]; simpl; intros Hk; [reflexivity|].
  apply not_elem_of_cons in Hk as [Hk0 Hk].
  rewrite decide_False by congruence. rewrite IH by exact Hk. reflexivity.
Qed.

Lemma dict_get_elem (k : pystr) (v : V) (d : list (pystr * V)) :
  NoDup (map fst d) -> (k, v) ∈ d <-> dict_get k d = Some v.
Proof.
  induction d as [|[k0 v0] d IH]; simpl; intros Hd.
  - split; [intros H; inversion H | discriminate].
  - apply NoDup_cons in Hd as [Hk0 Hd]. rewrite elem_of_cons. case_decide as H0.
    + subst k0. split.
      * intros [H|H]; [congruence|].
        exfalso. apply Hk0. apply list_elem_of_fmap_2' with (x := (k, v)); auto.
      * intros H; injection H as ->; left; reflexivity.
    + rewrite <- IH by exact Hd. split; [intros [H|H]; [congruence|exact H] | auto].
Qed.

End Dict.

(** *** simple_list and key_value keep arrival order *)

Lemma simple_list_fold (acc rs : list pystr) :
  fold_left simple_list_step rs acc = acc ++ filter (fun f => f <> []) rs.
Proof.
  revert acc; induction rs as [|f rs IH]; intros acc; simpl.
  - rewrite app_nil_r. reflexivity.
  - rewrite IH, filter_cons. unfold simple_list_step.
    case_bool_decide; case_decide; try contradiction; [|reflexivity].
    rewrite <- app_assoc. reflexivity.
Qed.

Lemma key_value_fold (acc rs : list (pystr * pystr)) :
  NoDup (map fst acc ++ map fst (filter (fun r => r.1 <> []) rs)) ->
  fold_left key_value_step rs acc = acc ++ filter (fun r => r.1 <> []) rs.
Proof.
  revert acc; induction rs as [|[f s] rs IH]; intros acc Hnd; simpl.
  - rewrite app_nil_r. reflexivity.
  - rewrite filter_cons in *. simpl in *. unfold key_value_step.
    case_bool_decide as Hf; case_decide; try contradiction.
    + simpl in Hnd. rewrite dict_upd_fresh.
      * rewrite IH; [rewrite <- app_assoc; reflexivity|].
        rewrite map_app, <- app_assoc. exact Hnd.
      * intros Hin. apply NoDup_app in Hnd as (_ & Hdis & _).
        apply (Hdis f Hin). left.
    + apply IH. exact Hnd.
Qed.

Lemma simple_list_order_dependent :
  [lit "a"; lit "b"] ≡ₚ [lit "b"; lit "a"] /\
  simple_list (map Ok [lit "a"; lit "b"]) <> simple_list (map Ok [lit "b"; lit "a"]).
Proof.
  split; [apply perm_swap|]. vm_compute. discriminate.
Qed.

(** C1 (amended): two_level renders the same text for every arrival order
    of the same results; simple_list and key_value render their entries in
    arrival order (key_value: the results with a non-empty path, distinct
    as in a run), so another arrival order permutes the rendered lines. *)
Theorem collectors_arrival_order :
  (forall rs rs' : list (pystr * pystr), rs ≡ₚ rs' ->
     two_level (map Ok rs) = two_level (map Ok rs')) /\
  (forall rs rs' : list pystr, rs ≡ₚ rs' ->
     simple_list (map Ok rs) = Ok (join newline (filter (fun f => f <> []) rs)) /\
     filter (fun f => f <> []) rs ≡ₚ filter (fun f => f <> []) rs') /\
  (forall rs rs' : list (pystr * pystr), rs ≡ₚ rs' ->
     NoDup (map fst (filter (fun r => r.1 <> []) rs)) ->
     key_value (map Ok rs)
       = Ok (join newline (map key_value_line (filter (fun r => r.1 <> []) rs))) /\
     map key_value_line (filter (fun r => r.1 <> []) rs)
       ≡ₚ map key_value_line (filter (fun r => r.1 <> []) rs')).
Proof.
  split; [exact two_level_perm|]. split.
  - intros rs rs' Hp. split.
    + unfold simple_list. rewrite consume_map_Ok, simple_list_fold. reflexivity.
    + rewrite Hp. reflexivity.
  - intros rs rs' Hp Hnd. split.
    + unfold key_value. rewrite consume_map_Ok, key_value_fold; [reflexivity|exact Hnd].
    + rewrite Hp. reflexivity.
Qed.

(** *** The stable sort *)

Section Sort.

Context {A : Type} (le : A -> A -> bool) (R : A -> A -> Prop)
  (Hle : forall a b, le a b = true <-> R a b)
  (Htotal : forall a b, R a b \/ R b a).

Lemma insert_by_perm (x : A) (l : list A) : insert_by le x l ≡ₚ x :: l.
Proof.
  induction l as [|y l IH]; simpl; [reflexivity|].
  destruct (le y x); [|reflexivity].
  rewrite IH. apply perm_swap.
Qed.

Lemma sort_by_perm (l : list A) : sort_by le l ≡ₚ l.
Proof.
  unfold sort_by.
  assert (H : forall acc, fold_left (fun acc x => insert_by le x acc) l acc ≡ₚ acc ++ l).
  { induction l as [|x l IH]; intros acc; simpl; [by rewrite app_nil_r|].
    rewrite IH, insert_by_perm. simpl. apply Permutation_middle. }
  rewrite H. reflexivity.
Qed.

Lemma insert_by_HdRel (x y : A) (l : list A) :
  HdRel R y l -> R y x -> HdRel R y (insert_by le x l).
Proof.
  destruct l as [|z l]; simpl; intros Hy Hyx; [by constructor|].
  destruct (le z x); constructor; [inversion Hy; assumption | exact Hyx].
Qed.

Lemma insert_by_sorted (x : A) (l : list A) :
  Sorted R l -> Sorted R (insert_by le x l).
Proof.
  induction l as [|y l IH]; simpl; intros Hs; [by repeat constructor|].
  destruct (le y x) eqn:Hyx.
  - apply Sorted_inv in Hs as [Hs Hhd]. constructor; [exact (IH Hs)|].
    apply insert_by_HdRel; [exact Hhd | apply Hle, Hyx].
  - constructor; [exact Hs|]. constructor.
    destruct (Htotal x y) as [H|H]; [exact H|].
    apply Hle in H. congruence.
Qed.

Lemma sort_by_sorted (l : list A) : Sorted R (sort_by le l).
Proof.
  unfold sort_by.
  assert (H : forall acc, Sorted R acc ->
            Sorted R (fold_left (fun acc x => insert_by le x acc) l acc)).
  { induction l as [|x l IH]; intros acc Hacc; simpl; [exact Hacc|].
    apply IH, insert_by_sorted, Hacc. }
  apply H. constructor.
Qed.

End Sort.

(** *** Counting *)

Lemma occurrences_perm {A} `{EqDecision A} (x : A) (l l' : list A) :
  l ≡ₚ l' -> occurrences x l = occurrences x l'.
Proof. intros Hp. unfold occurrences. rewrite Hp. reflexivity. Qed.

Lemma occurrences_snoc {A} `{EqDecision A} (x y : A) (l : list A) :
  occurrences x (l ++ [y]) = (occurrences x l + if decide (y = x) then 1 else 0)%nat.
Proof.
  unfold occurrences. rewrite filter_app, length_app. simpl.
  rewrite filter_cons. case_decide; reflexivity.
Qed.

Lemma occurrences_elem {A} `{EqDecision A} (x : A) (l : list A) :
  occurrences x l <> 0%nat <-> x ∈ l.
Proof.
  unfold occurrences. induction l as [|y l IH]; simpl.
  - split; [congruence | intros H; inversion H].
  - rewrite filter_cons, elem_of_cons. case_decide; simpl.
    + split; [intros _; left; congruence | intros _; discriminate].
    + rewrite IH. intuition congruence.
Qed.

Lemma dict_keys_upd_order {V} (k : pystr) (g : option V -> V) (d : list (pystr * V)) :
  map fst (dict_upd k g d) = if decide (k ∈ map fst d) then map fst d else map fst d ++ [k].
Proof.
  induction d as [|[k0 v] d IH]; simpl; [reflexivity|].
  destruct (decide (k0 = k)) as [->|H0]; simpl.
  - rewrite decide_True by (left). reflexivity.
  - rewrite IH. destruct (decide (k ∈ map fst d)) as [Hin|Hin];
      [rewrite decide_True by (right; exact Hin); reflexivity|].
    rewrite decide_False; [reflexivity|]. intros Hc. apply elem_of_cons in Hc as [Hc|Hc]; auto.
Qed.

Lemma elem_of_rev_iff {A} (x : A) (l : list A) : x ∈ rev l <-> x ∈ l.
Proof. rewrite !list_elem_of_In. symmetry. apply in_rev. Qed.

Lemma dict_as_map {V} (f : pystr -> V) (d : list (pystr * V)) :
  (forall k v, (k, v) ∈ d -> v = f k) -> d = map (fun k => (k, f k)) (map fst d).
Proof.
  induction d as [|[k v] d IH]; simpl; intros H; [reflexivity|].
  f_equal; [rewrite (H k v) by left; reflexivity|].
  apply IH. intros k' v' Hin. apply H. right. exact Hin.
Qed.

Lemma filter_none {A} (P : A -> Prop) `{forall x, Decision (P x)} (l : list A) :
  Forall (fun x => ~ P x) l -> filter P l = [].
Proof.
  induction 1 as [|x l Hx Hl IH]; [reflexivity|].
  rewrite filter_cons, decide_False by exact Hx. exact IH.
Qed.

(** *** stats *)

Lemma stats_fold_spec (rs : list pystr) :
  NoDup (map fst (fold_left stats_step rs [])) /\
  forall k, dict_get k (fold_left stats_step rs []) =
    if decide (occurrences k rs = 0%nat) then None else Some (occurrences k rs).
Proof.
  induction rs as [|x rs IH] using rev_ind; simpl.
  - split; [constructor | reflexivity].
  - rewrite fold_left_app. simpl. destruct IH as [Hnd Hget]. unfold stats_step. split.
    + apply dict_upd_NoDup, Hnd.
    + intros k. rewrite dict_get_upd, occurrences_snoc.
      destruct (decide (x = k)) as [->|Hxk].
      * rewrite Hget. destruct (decide (occurrences k rs = 0%nat)) as [H0|H0];
          rewrite decide_False by lia; f_equal; lia.
      * rewrite Hget, Nat.add_0_r. reflexivity.
Qed.

Lemma stats_rows_elem (rs : list pystr) (k : pystr) (c : nat) :
  (k, c) ∈ stats_rows (fold_left stats_step rs []) <-> k ∈ rs /\ c = occurrences k rs.
Proof.
  destruct (stats_fold_spec rs) as [Hnd Hget].
  unfold stats_rows. rewrite (sort_by_perm _ _).
  rewrite dict_get_elem by exact Hnd. rewrite Hget, <- occurrences_elem.
  case_decide; split; intuition congruence.
Qed.

Lemma stats_rows_sorted (res : list (pystr * nat)) : Sorted count_le (stats_rows res).
Proof.
  apply (sort_by_sorted _ count_le).
  - intros a b. unfold count_le. apply Nat.leb_le.
  - intros a b. unfold count_le. lia.
Qed.

Lemma stats_fold_keys (rs : list pystr) :
  map fst (fold_left stats_step rs []) = rev (remove_dups (rev rs)).
Proof.
  induction rs as [|x rs IH] using rev_ind; [reflexivity|].
  rewrite fold_left_app. simpl.
  set (acc := fold_left stats_step rs []) in *. unfold stats_step.
  rewrite dict_keys_upd_order, IH, rev_app_distr. simpl.
  set (L := rev rs). unfold decide_rel.
  destruct (decide (x ∈ L)) as [Hin|Hin].
  - rewrite decide_True by (rewrite elem_of_rev_iff, elem_of_remove_dups; exact Hin).
    destruct (list_elem_of_dec x L); [reflexivity|contradiction].
  - rewrite decide_False by (rewrite elem_of_rev_iff, elem_of_remove_dups; exact Hin).
    destruct (list_elem_of_dec x L); [contradiction|reflexivity].
Qed.

Lemma stats_fold_list (rs : list pystr) :
  fold_left stats_step rs []
    = map (fun v => (v, occurrences v rs)) (rev (remove_dups (rev rs))).
Proof.
  rewrite <- stats_fold_keys. apply (dict_as_map (fun v => occurrences v rs)).
  intros k v Hin. destruct (stats_fold_spec rs) as [Hnd Hget].
  apply (dict_get_elem k v _ Hnd) in Hin. rewrite Hget in Hin.
  case_decide; [discriminate|]. injection Hin as <-. reflexivity.
Qed.

Lemma insert_by_count_filter (c : nat) (x : pystr * nat) (l : list (pystr * nat)) :
  Sorted count_le l ->
  filter (fun r => r.2 = c) (insert_by (fun a b => Nat.leb (snd a) (snd b)) x l)
    = filter (fun r => r.2 = c) l ++ filter (fun r => r.2 = c) [x].
Proof.
  induction l as [|y l IH]; intros Hs; [reflexivity|].
  cbn [insert_by]. destruct (Nat.leb_spec (snd y) (snd x)) as [Hyx|Hyx].
  - apply Sorted_inv in Hs as [Hs' _].
    rewrite (filter_cons _ y (insert_by _ x l)), (filter_cons _ y l), IH by exact Hs'.
    case_decide; reflexivity.
  - rewrite (filter_cons _ x). case_decide as Hx.
    + rewrite (filter_none _ (y :: l)); [rewrite filter_cons, decide_True by exact Hx; reflexivity|].
      apply Sorted_StronglySorted in Hs; [|intros a b d; unfold count_le; lia].
      apply StronglySorted_inv in Hs as [_ Hf]. constructor; [simpl; lia|].
      eapply Forall_impl; [exact Hf|]. intros z Hz. unfold count_le in Hz. simpl. lia.
    + rewrite (filter_cons _ x []), decide_False by exact Hx.
      rewrite filter_nil, app_nil_r. reflexivity.
Qed.

Lemma sort_by_count_filter (c : nat) (l : list (pystr * nat)) :
  filter (fun r => r.2 = c) (sort_by (fun a b => Nat.leb (snd a) (snd b)) l)
    = filter (fun r => r.2 = c) l.
Proof.
  unfold sort_by.
  assert (H : forall acc, Sorted count_le acc ->
    filter (fun r => r.2 = c)
      (fold_left (fun acc x => insert_by (fun a b => Nat.leb (snd a) (snd b)) x acc) l acc)
    = filter (fun r => r.2 = c) acc ++ filter (fun r => r.2 = c) l).
  { induction l as [|x l IH]; intros acc Hacc; simpl; [by rewrite filter_nil, app_nil_r|].
    rewrite IH.
    - rewrite insert_by_count_filter by exact Hacc. rewrite <- app_assoc. f_equal.
      rewrite (filter_cons _ x l), (filter_cons _ x []), filter_nil.
      case_decide; reflexivity.
    - apply (insert_by_sorted _ count_le); [| |exact Hacc].
      + intros a b. unfold count_le. apply Nat.leb_le.
      + intros a b. unfold count_le. lia. }
  apply H. constructor.
Qed.

Lemma filter_count_map (c : nat) (f : pystr -> nat) (K : list pystr) :
  filter (fun r : pystr * nat => r.2 = c) (map (fun k => (k, f k)) K)
    = map (fun k => (k, c)) (filter (fun k => f k = c) K).
Proof.
  induction K as [|k K IH]; [reflexivity|]. cbn [map].
  rewrite !filter_cons. simpl. case_decide as Hk; simpl; rewrite IH; [|reflexivity].
  rewrite Hk. reflexivity.
Qed.

Lemma stats_rows_ties (rs : list pystr) (c : nat) :
  filter (fun r => r.2 = c) (stats_rows (fold_left stats_step rs []))
    = map (fun v => (v, c)) (filter (fun v => occurrences v rs = c) (rev (remove_dups (rev rs)))).
Proof.
  unfold stats_rows. rewrite sort_by_count_filter, stats_fold_list. apply filter_count_map.
Qed.

Lemma stats_counterexample_orders :
  [lit "a"; lit "b"] ≡ₚ [lit "b"; lit "a"] /\
  stats (map Ok [lit "a"; lit "b"]) = Ok (lit "     1 | a" ++ newline ++ lit "     1 | b") /\
  stats (map Ok [lit "b"; lit "a"]) = Ok (lit "     1 | b" ++ newline ++ lit "     1 | a") /\
  stats (map Ok [lit "a"; lit "b"]) <> stats (map Ok [lit "b"; lit "a"]).
Proof.
  split; [apply perm_swap|]. split; [reflexivity|]. split; [reflexivity|].
  vm_compute. discriminate.
Qed.

(** C3 (amended): for two arrival orders of the same values, stats has the
    same (value, count) rows, one per distinct value with its number of
    occurrences, each list sorted ascending by count; so the rendered lines
    are the same up to order. Lines of equal count follow the first
    arrival of their value: the rows of count [c] are the values occurring
    [c] times, in the order of their first occurrence in the arrival order
    ([rev (remove_dups (rev rs))] keeps each value's first occurrence). *)
Theorem stats_arrival_order (rs rs' : list pystr) (Hp : rs ≡ₚ rs') :
  stats (map Ok rs)
    = Ok (join newline (map stats_line (stats_rows (fold_left stats_step rs [])))) /\
  stats (map Ok rs')
    = Ok (join newline (map stats_line (stats_rows (fold_left stats_step rs' [])))) /\
  (forall k c, (k, c) ∈ stats_rows (fold_left stats_step rs [])
     <-> k ∈ rs /\ c = occurrences k rs) /\
  NoDup (map fst (stats_rows (fold_left stats_step rs []))) /\
  Sorted count_le (stats_rows (fold_left stats_step rs [])) /\
  Sorted count_le (stats_rows (fold_left stats_step rs' [])) /\
  map stats_line (stats_rows (fold_left stats_step rs []))
    ≡ₚ map stats_line (stats_rows (fold_left stats_step rs' [])) /\
  (forall c, filter (fun r => r.2 = c) (stats_rows (fold_left stats_step rs []))
     = map (fun v => (v, c))
         (filter (fun v => occurrences v rs = c) (rev (remove_dups (rev rs))))).
Proof.
  assert (Hnd : forall l : list pystr, NoDup (map fst (stats_rows (fold_left stats_step l [])))).
  { intros l. unfold stats_rows. rewrite (sort_by_perm _ _). apply stats_fold_spec. }
  split; [unfold stats; rewrite consume_map_Ok; reflexivity|].
  split; [unfold stats; rewrite consume_map_Ok; reflexivity|].
  split; [apply stats_rows_elem|].
  split; [apply Hnd|].
  split; [apply stats_rows_sorted|].
  split; [apply stats_rows_sorted|].
  split; [|apply stats_rows_ties].
  f_equiv. apply NoDup_Permutation.
  - eapply NoDup_fmap_1. apply Hnd.
  - eapply NoDup_fmap_1. apply Hnd.
  - intros [k c]. rewrite !stats_rows_elem, (occurrences_perm k rs rs' Hp), Hp.
    reflexivity.
Qed.

Lemma stats_arrival_order_witness :
  [lit "a"; lit "b"; lit "a"] ≡ₚ [lit "b"; lit "a"; lit "a"] /\
  map stats_line (stats_rows (fold_left stats_step [lit "a"; lit "b"; lit "a"] []))
    ≡ₚ map stats_line (stats_rows (fold_left stats_step [lit "b"; lit "a"; lit "a"] [])).
Proof.
  assert (Hp : [lit "a"; lit "b"; lit "a"] ≡ₚ [lit "b"; lit "a"; lit "a"]) by apply perm_swap.
  split; [exact Hp|].
  exact (proj1 (proj2 (proj2 (proj2 (proj2 (proj2 (proj2 (stats_arrival_order _ _ Hp)))))))).
Defined.

(** *** nogpsdir *)

Lemma map_fst_filter_NoDup {A B} (P : A * B -> Prop) `{forall x, Decision (P x)}
    (l : list (A * B)) :
  NoDup (map fst l) -> NoDup (map fst (filter P l)).
Proof.
  induction l as [|x l IH]; simpl; intros Hnd; [constructor|].
  apply NoDup_cons in Hnd as [Hx Hnd]. rewrite filter_cons. case_decide; simpl.
  - constructor; [|exact (IH Hnd)].
    intros Hin. apply Hx. apply list_elem_of_fmap_1 in Hin as (y & Hy & Hin).
    apply list_elem_of_filter in Hin as [_ Hin]. rewrite Hy. apply list_elem_of_fmap_2, Hin.
  - exact (IH Hnd).
Qed.

Lemma Sorted_filter {A} (R : A -> A -> Prop) (Htrans : Transitive R)
    (P : A -> Prop) `{forall x, Decision (P x)} (l : list A) :
  Sorted R l -> Sorted R (filter P l).
Proof.
  intros Hs. apply StronglySorted_Sorted.
  apply (Sorted_StronglySorted R) in Hs.
  induction Hs as [|x l Hs IH Hall]; simpl; [constructor|].
  rewrite filter_cons. case_decide; [|exact IH].
  constructor; [exact IH|]. apply Forall_forall. intros y Hy.
  apply list_elem_of_filter in Hy as [_ Hy].
  exact (proj1 (Forall_forall _ _) Hall y Hy).
Qed.

Lemma nogpsdir_fold_spec (rs : list (pystr * bool)) :
  NoDup (map fst (fold_left nogpsdir_step rs [])) /\
  forall k, dict_get k (fold_left nogpsdir_step rs []) =
    if decide ((occurrences (k, true) rs + occurrences (k, false) rs)%nat = 0%nat)
    then None else Some (occurrences (k, true) rs, occurrences (k, false) rs).
Proof.
  induction rs as [|[x b] rs IH] using rev_ind; simpl.
  - split; [constructor | reflexivity].
  - rewrite fold_left_app. simpl. destruct IH as [Hnd Hget]. unfold nogpsdir_step. split.
    + apply dict_upd_NoDup, Hnd.
    + intros k. rewrite dict_get_upd, !occurrences_snoc.
      destruct (decide (x = k)) as [->|Hxk].
      * rewrite Hget.
        destruct b; rewrite ?(decide_True (P := (k, true) = (k, true))),
          ?(decide_False (P := (k, true) = (k, false))),
          ?(decide_False (P := (k, false) = (k, true))),
          ?(decide_True (P := (k, false) = (k, false))) by congruence;
          (destruct (decide (_ = 0%nat)) as [H0|H0]; simpl;
           [rewrite decide_False by lia; f_equal; f_equal; lia
           |rewrite decide_False by lia; f_equal; f_equal; lia]).
      * rewrite Hget.
        rewrite (decide_False (P := (x, b) = (k, true))), (decide_False (P := (x, b) = (k, false)))
          by congruence.
        rewrite !Nat.add_0_r. reflexivity.
Qed.

Lemma nogpsdir_rows_elem (rs : list (pystr * bool)) (k : pystr) (t fl : nat) :
  (k, (t, fl)) ∈ nogpsdir_rows (fold_left nogpsdir_step rs []) <->
  t = occurrences (k, true) rs /\ fl = occurrences (k, false) rs /\ (0 < t)%nat.
Proof.
  destruct (nogpsdir_fold_spec rs) as [Hnd Hget].
  unfold nogpsdir_rows. rewrite list_elem_of_filter, (sort_by_perm _ _).
  rewrite dict_get_elem by exact Hnd. rewrite Hget. simpl.
  case_decide; split; intuition (try congruence; try lia);
    match goal with
    | H : Some _ = Some _ |- _ => injection H as <- <-; reflexivity
    | _ => subst; reflexivity
    end.
Qed.

Lemma nogpsdir_rows_sorted (res : list (pystr * (nat * nat))) :
  NoDup (map fst res) ->
  NoDup (map fst (nogpsdir_rows res)) /\ Sorted dir_le (nogpsdir_rows res).
Proof.
  intros Hnd. unfold nogpsdir_rows. split.
  - apply map_fst_filter_NoDup. rewrite (sort_by_perm _ _). exact Hnd.
  - apply Sorted_filter; [intros a b c; unfold dir_le; lia|].
    apply (sort_by_sorted _ dir_le).
    + intros a b. unfold dir_le. apply Nat.leb_le.
    + intros a b. unfold dir_le. lia.
Qed.

Lemma NoDup_fst_all_eq {A B} (l : list (A * B)) (a : A * B) :
  NoDup (map fst l) -> (forall x, x ∈ l -> x = a) -> a ∈ l -> l = [a].
Proof.
  intros Hnd Hall Ha. destruct l as [|x [|y l]]; [inversion Ha| |].
  - rewrite (Hall x) by left. reflexivity.
  - exfalso. simpl in Hnd. apply NoDup_cons in Hnd as [Hx _]. apply Hx.
    rewrite (Hall x), (Hall y) by (repeat constructor). left.
Qed.

(** C7: the nogpsdir worker flags a file as no-GPS exactly when its GPS
    latitude or longitude is absent or empty and keys it by its directory;
    the collector renders, for every directory with at least one no-GPS
    file and only for those, one line with its no-GPS and has-GPS counts,
    in ascending no-GPS count; a directory of 3 files of which 2 lack GPS
    gives the line ["  2 |   1 | /d"] whatever the arrival order. *)
Theorem nogpsdir_report :
  (forall (exif : pystr -> Res Exif) (f : pystr) (e : Exif), exif f = Ok e ->
     exists nogps, nogpsdir_worker exif f = Ok (dirname f, nogps) /\
       (nogps = true <->
          (get_ifd e IFD_GPSInfo !! GPSLatitude = None \/
           exists v, get_ifd e IFD_GPSInfo !! GPSLatitude = Some v /\ truthy v = false) \/
          (get_ifd e IFD_GPSInfo !! GPSLongitude = None \/
           exists v, get_ifd e IFD_GPSInfo !! GPSLongitude = Some v /\ truthy v = false))) /\
  (forall rs : list (pystr * bool),
     nogpsdir (map Ok rs)
       = Ok (join newline (map nogpsdir_line (nogpsdir_rows (fold_left nogpsdir_step rs [])))) /\
     (forall k t fl, (k, (t, fl)) ∈ nogpsdir_rows (fold_left nogpsdir_step rs []) <->
        t = occurrences (k, true) rs /\ fl = occurrences (k, false) rs /\ (0 < t)%nat) /\
     (forall k, (exists t fl, (k, (t, fl)) ∈ nogpsdir_rows (fold_left nogpsdir_step rs []))
        <-> (k, true) ∈ rs) /\
     NoDup (map fst (nogpsdir_rows (fold_left nogpsdir_step rs []))) /\
     Sorted dir_le (nogpsdir_rows (fold_left nogpsdir_step rs []))) /\
  (forall rs : list (pystr * bool),
     rs ≡ₚ [(lit "/d", true); (lit "/d", true); (lit "/d", false)] ->
     nogpsdir (map Ok rs) = Ok (lit "  2 |   1 | /d")).
Proof.
  assert (Hrows : forall rs : list (pystr * bool),
     NoDup (map fst (nogpsdir_rows (fold_left nogpsdir_step rs []))) /\
     Sorted dir_le (nogpsdir_rows (fold_left nogpsdir_step rs []))).
  { intros rs. apply nogpsdir_rows_sorted, nogpsdir_fold_spec. }
  assert (Hrender : forall rs : list (pystr * bool), nogpsdir (map Ok rs)
     = Ok (join newline (map nogpsdir_line (nogpsdir_rows (fold_left nogpsdir_step rs []))))).
  { intros rs. unfold nogpsdir. rewrite consume_map_Ok. reflexivity. }
  split; [|split].
  - intros exif f e He. unfold nogpsdir_worker. rewrite He. simpl.
    eexists. split; [reflexivity|].
    rewrite <- !get_falsy_spec. apply orb_true_iff.
  - intros rs. split; [apply Hrender|]. split; [apply nogpsdir_rows_elem|].
    split; [|apply Hrows].
    intros k. rewrite <- occurrences_elem. split.
    + intros (t & fl & Hin). apply nogpsdir_rows_elem in Hin. lia.
    + intros Hk. exists (occurrences (k, true) rs), (occurrences (k, false) rs).
      apply nogpsdir_rows_elem. lia.
  - intros rs Hp. rewrite Hrender.
    assert (Hocc : forall x, occurrences x rs
              = occurrences x [(lit "/d", true); (lit "/d", true); (lit "/d", false)])
      by (intros x; apply occurrences_perm, Hp).
    rewrite (NoDup_fst_all_eq _ (lit "/d", (2%nat, 1%nat))); [reflexivity|apply Hrows|..].
    + intros [k [t fl]] Hin. apply nogpsdir_rows_elem in Hin as (Ht & Hfl & Hpos).
      rewrite Hocc in Ht, Hfl. unfold occurrences in Ht, Hfl. simpl in Ht, Hfl.
      repeat rewrite filter_cons in Ht, Hfl. rewrite filter_nil in Ht, Hfl.
      destruct (decide (k = lit "/d")) as [->|Hk].
      * rewrite Ht, Hfl. simpl. repeat (case_decide; try congruence).
      * exfalso. revert Ht Hpos. repeat (case_decide; try congruence). simpl. lia.
    + apply nogpsdir_rows_elem. rewrite !Hocc. vm_compute. lia.
Qed.

(** *** two_level totals *)

Section Totals.

Context {V : Type} (w : V -> nat).

Lemma wsum_insert (m : gmap pystr V) (k : pystr) (v : V) :
  wsum w (<[k := v]> m) = (w v + wsum w (delete k m))%nat.
Proof.
  unfold wsum. rewrite <- insert_delete_eq.
  rewrite map_to_list_insert by apply lookup_delete_eq. reflexivity.
Qed.

Lemma wsum_delete (m : gmap pystr V) (k : pystr) :
  wsum w m = ((match m !! k with Some v => w v | None => 0 end) + wsum w (delete k m))%nat.
Proof.
  destruct (m !! k) as [v|] eqn:Hk.
  - unfold wsum. rewrite <- (map_to_list_delete m k v Hk). reflexivity.
  - rewrite delete_id by exact Hk. reflexivity.
Qed.

Lemma wsum_empty : wsum w ∅ = 0%nat.
Proof. unfold wsum. rewrite map_to_list_empty. reflexivity. Qed.

Lemma sum_sorted_keys (m : gmap pystr V) (g : pystr -> nat)
    (Hg : forall k v, m !! k = Some v -> g k = w v) :
  sum_list_with g (sorted_keys m) = wsum w m.
Proof.
  unfold sorted_keys, wsum. rewrite (sort_by_perm _ _).
  assert (Hin : forall kv, kv ∈ map_to_list m -> g kv.1 = w kv.2).
  { intros [k v] Hkv. apply elem_of_map_to_list in Hkv. exact (Hg k v Hkv). }
  induction (map_to_list m) as [|kv l IH]; simpl; [reflexivity|].
  rewrite (Hin kv) by left. rewrite IH; [reflexivity|].
  intros kv' H. apply Hin. right. exact H.
Qed.

End Totals.

Lemma two_level_step_total (stat : gmap pystr (gmap pystr nat)) (r : pystr * pystr) :
  wsum cell_total (two_level_step stat r) = S (wsum cell_total stat).
Proof.
  destruct r as [mk md]. unfold two_level_step.
  rewrite wsum_insert, (wsum_delete _ stat mk).
  unfold cell_total at 1. rewrite wsum_insert.
  destruct (stat !! mk) as [x|]; simpl.
  - unfold cell_total. rewrite (wsum_delete _ x md).
    destruct (x !! md); simpl; reflexivity.
  - rewrite delete_id by apply lookup_empty. rewrite wsum_empty. reflexivity.
Qed.

Lemma two_level_fold_total (vs : list (pystr * pystr)) (stat : gmap pystr (gmap pystr nat)) :
  wsum cell_total (fold_left two_level_step vs stat) = (length vs + wsum cell_total stat)%nat.
Proof.
  revert stat; induction vs as [|r vs IH]; intros stat; simpl; [reflexivity|].
  rewrite IH, two_level_step_total. lia.
Qed.

Lemma two_level_rows_total (stat : gmap pystr (gmap pystr nat)) :
  sum_list_with (fun '(_, _, n) => n) (two_level_rows stat) = wsum cell_total stat.
Proof.
  unfold two_level_rows.
  rewrite <- (sum_sorted_keys cell_total stat
                (fun mk => cell_total (default ∅ (stat !! mk)))).
  2: { intros k v Hk. rewrite Hk. reflexivity. }
  induction (sorted_keys stat) as [|mk l IH]; simpl; [reflexivity|].
  rewrite sum_list_with_app, IH. f_equal.
  unfold cell_total. rewrite <- (sum_sorted_keys (fun n => n) _
     (fun md => default 0%nat (default ∅ (stat !! mk) !! md))).
  2: { intros k v Hk. rewrite Hk. reflexivity. }
  induction (sorted_keys (default ∅ (stat !! mk))) as [|md l' IH']; simpl; [reflexivity|].
  rewrite IH'. reflexivity.
Qed.

Lemma all_tasks_ok {T} (w : pystr -> Res T) (l : list pystr) :
  (forall x, x ∈ l -> task_error (w x) = None) ->
  exists vs, map w l = map Ok vs /\ length vs = length l.
Proof.
  induction l as [|x l IH]; intros Hok; [exists []; auto|].
  destruct IH as (vs & Hvs & Hlen); [intros y Hy; apply Hok; right; exact Hy|].
  specialize (Hok x ltac:(left)). destruct (w x) as [v|e] eqn:Hx; [|discriminate].
  exists (v :: vs). simpl. rewrite Hx, Hvs, Hlen. auto.
Qed.

(** C6: when no task of a cams run raises, the run prints the two_level
    report, and the counts of its rows (one per maker/model pair) add up
    to the number of sieved, non-excluded files. *)
Theorem cams_report_total (has_heif : bool) (exif : pystr -> Res Exif)
    (walk : list (pystr * list pystr * list pystr)) (exclude : list pystr)
    (complete : list pystr -> list pystr)
    (Hperm : complete (tasks_of (img has_heif) exclude walk) ≡ₚ tasks_of (img has_heif) exclude walk)
    (Hok : forall ff, ff ∈ tasks_of (img has_heif) exclude walk -> task_error (cams exif ff) = None) :
  exists stat,
    run_mode MCams has_heif exif walk exclude complete = (Ok tt, [two_level_render stat]) /\
    two_level_render stat
      = concat (map (fun '(maker, model, n) => two_level_line maker model n) (two_level_rows stat)) /\
    sum_list_with (fun '(_, _, n) => n) (two_level_rows stat)
      = length (tasks_of (img has_heif) exclude walk).
Proof.
  destruct (all_tasks_ok (cams exif) (complete (tasks_of (img has_heif) exclude walk)))
    as (vs & Hvs & Hlen).
  { intros x Hx. apply Hok. rewrite <- Hperm. exact Hx. }
  exists (fold_left two_level_step vs ∅). split; [|split; [reflexivity|]].
  - simpl. unfold main, two_level. rewrite Hvs, consume_map_Ok. reflexivity.
  - rewrite two_level_rows_total, two_level_fold_total, wsum_empty, Hlen, Hperm. lia.
Qed.

Lemma cams_report_total_witness :
  exists stat,
    run_mode MCams false cams_exif cams_walk [] (fun l => l) = (Ok tt, [two_level_render stat]) /\
    sum_list_with (fun '(_, _, n) => n) (two_level_rows stat) = 2%nat.
Proof.
  destruct (cams_report_total false cams_exif cams_walk [] (fun l => l) ltac:(reflexivity))
    as (stat & Hrun & _ & Hsum).
  - intros ff Hff. vm_compute in Hff.
    repeat (apply elem_of_cons in Hff as [->|Hff]; [reflexivity|]). inversion Hff.
  - exists stat. split; [exact Hrun | exact Hsum].
Defined.


(** In the older revision an image without Make and Model tags is not
    listed by nocam; the final revision lists it. *)
Lemma legacy_nocam_skips_absent_tags :
  legacy_nocam (fun _ => Ok (mkExif ∅ ∅)) (lit "a.jpg") = Ok [] /\
  nocam (fun _ => Ok (mkExif ∅ ∅)) (lit "a.jpg") = Ok (lit "a.jpg").
Proof. split; reflexivity. Qed.

(** * Further properties of the code *)

(** ** Truncation helpers: [right], [left] and the key_value line *)

Lemma length_pad_left (w : nat) (s : pystr) : length (pad_left w s) = Nat.max w (length s).
Proof. unfold pad_left. rewrite length_app, length_replicate. lia. Qed.

Lemma length_pad_right (w : nat) (s : pystr) : length (pad_right w s) = Nat.max w (length s).
Proof. unfold pad_right. rewrite length_app, length_replicate. lia. Qed.

Lemma right_length (n : nat) (x : pystr) :
  (2 <= n)%nat -> length (right n x) = Nat.min (length x) n.
Proof.
  intros Hn. unfold right. destruct (Nat.ltb_spec (length x) n); [lia|].
  destruct n as [|[|m]]; [lia|lia|]. simpl. rewrite length_drop. lia.
Qed.

Lemma left_length (n : nat) (x : pystr) :
  (1 <= n)%nat -> length (left n x) = Nat.min (length x) n.
Proof.
  intros Hn. unfold left. destruct (Nat.ltb_spec (length x) n); [lia|].
  destruct n as [|m]; [lia|]. rewrite length_app, length_take. simpl. lia.
Qed.

(** For a width [n >= 2], [right n x] is [x] when [x] is shorter than [n],
    and otherwise an ellipsis followed by the last [n - 1] characters of
    [x]; either way it has [min (len x) n] characters. *)
Theorem right_keeps_suffix (n : nat) (x : pystr) (Hn : (2 <= n)%nat) :
  length (right n x) = Nat.min (length x) n /\
  ((length x < n)%nat -> right n x = x) /\
  ((n <= length x)%nat ->
     exists p t, x = p ++ t /\ length t = (n - 1)%nat /\ right n x = ellipsis :: t).
Proof.
  split; [apply right_length, Hn|]. unfold right.
  destruct (Nat.ltb_spec (length x) n) as [Hlt|Hge]; split; intros H; try lia; [reflexivity|].
  destruct n as [|[|m]]; [lia|lia|].
  exists (take (length x - S m) x), (drop (length x - S m) x).
  split; [symmetry; apply take_drop|]. split; [rewrite length_drop; lia|reflexivity].
Qed.

Lemma right_keeps_suffix_witness :
  (2 <= 60)%nat /\ length (right 60 (lit "/photos/a.jpg")) = 13%nat.
Proof.
  split; [lia|].
  rewrite (proj1 (right_keeps_suffix 60 (lit "/photos/a.jpg") ltac:(lia))). reflexivity.
Defined.

(** For a width [n >= 1], [left n x] is [x] when [x] is shorter than [n],
    and otherwise the first [n - 1] characters of [x] followed by an
    ellipsis; either way it has [min (len x) n] characters. *)
Theorem left_keeps_prefix (n : nat) (x : pystr) (Hn : (1 <= n)%nat) :
  length (left n x) = Nat.min (length x) n /\
  ((length x < n)%nat -> left n x = x) /\
  ((n <= length x)%nat ->
     exists t r, x = t ++ r /\ length t = (n - 1)%nat /\ left n x = t ++ [ellipsis]).
Proof.
  split; [apply left_length, Hn|]. unfold left.
  destruct (Nat.ltb_spec (length x) n) as [Hlt|Hge]; split; intros H; try lia; [reflexivity|].
  destruct n as [|m]; [lia|].
  exists (take m x), (drop m x).
  split; [symmetry; apply take_drop|]. split; [rewrite length_take; lia|reflexivity].
Qed.

Lemma left_keeps_prefix_witness :
  (1 <= 30)%nat /\ length (left 30 (lit "Hugin 2019")) = 10%nat.
Proof.
  split; [lia|].
  rewrite (proj1 (left_keeps_prefix 30 (lit "Hugin 2019") ltac:(lia))). reflexivity.
Defined.

(** Every line of the key_value report has the same layout: 60 characters
    for the path (right-aligned, cut on the left with an ellipsis), the
    separator [" | "], then 30 characters for the whitespace-normalised
    value (left-aligned, cut on the right with an ellipsis); 93 characters
    in all, whatever the path and the value. *)
Theorem key_value_line_layout (k v : pystr) :
  exists a b, key_value_line (k, v) = a ++ lit " | " ++ b /\
    length a = 60%nat /\ length b = 30%nat /\
    a = pad_left 60 (right 60 k) /\
    b = pad_right 30 (left 30 (join (lit " ") (split_ws v))) /\
    length (key_value_line (k, v)) = 93%nat.
Proof.
  exists (pad_left 60 (right 60 k)), (pad_right 30 (left 30 (join (lit " ") (split_ws v)))).
  assert (Ha : length (pad_left 60 (right 60 k)) = 60%nat).
  { rewrite length_pad_left, right_length by lia. lia. }
  assert (Hb : length (pad_right 30 (left 30 (join (lit " ") (split_ws v)))) = 30%nat).
  { rewrite length_pad_right, left_length by lia. lia. }
  split; [reflexivity|]. split; [exact Ha|]. split; [exact Hb|].
  split; [reflexivity|]. split; [reflexivity|].
  simpl. rewrite length_app, Ha. simpl. rewrite Hb. reflexivity.
Qed.

(** ** file_ext *)

Lemma last_index_of_app (c : Z) (l1 l2 : pystr) (i : nat) (found : option nat) :
  last_index_of c (l1 ++ l2) i found
    = last_index_of c l2 (i + length l1) (last_index_of c l1 i found).
Proof.
  revert i found; induction l1 as [|d l1 IH]; intros i found; simpl.
  - rewrite Nat.add_0_r. reflexivity.
  - rewrite IH. f_equal. lia.
Qed.

Lemma last_index_of_Some (c : Z) (s : pystr) (i j : nat) (found : option nat) :
  last_index_of c s i found = Some j ->
  (exists k, j = (i + k)%nat /\ s !! k = Some c /\ c ∉ drop (S k) s) \/
  (found = Some j /\ c ∉ s).
Proof.
  revert i found; induction s as [|d s IH]; intros i found H; simpl in H.
  - right. split; [exact H | intros Hc; inversion Hc].
  - destruct (IH _ _ H) as [(k & -> & Hk & Hnot)|[Hf Hnot]].
    + left. exists (S k). split; [lia|]. split; [exact Hk | exact Hnot].
    + destruct (Z.eqb_spec d c) as [->|Hdc].
      * injection Hf as <-. left. exists 0%nat. split; [lia|]. split; [reflexivity|exact Hnot].
      * right. split; [exact Hf|]. intros Hin. apply elem_of_cons in Hin as [->|Hin]; auto.
Qed.

Lemma last_index_of_is_Some (c : Z) (s : pystr) (i : nat) (found : option nat) :
  is_Some found \/ c ∈ s -> is_Some (last_index_of c s i found).
Proof.
  revert i found; induction s as [|d s IH]; intros i found H; simpl.
  - destruct H as [H|H]; [exact H | inversion H].
  - apply IH. destruct H as [H|H].
    + left. destruct (d =? c); [eauto | exact H].
    + apply elem_of_cons in H as [->|H]; [left; rewrite Z.eqb_refl; eauto | right; exact H].
Qed.

(** [file_ext f] is the text after the last ["."] of the whole path:
    it returns [ext] exactly when [f] is [stem + "." + ext] with no ["."]
    in [ext] (so the extension may hold a ["/"] when only a directory name
    has a dot), and it raises [IndexError], and nothing else, exactly when
    [f] holds no ["."]. *)
Theorem file_ext_spec :
  (forall f ext, file_ext f = Ok ext <->
     exists stem, f = stem ++ [46] ++ ext /\ 46 ∉ ext) /\
  (forall f e, file_ext f = Err e <-> e = IndexError /\ 46 ∉ f) /\
  file_ext (lit "/photos/x.d/README") = Ok (lit "d/README").
Proof.
  assert (Hok : forall f ext, file_ext f = Ok ext <->
     exists stem, f = stem ++ [46] ++ ext /\ 46 ∉ ext).
  { intros f ext. unfold file_ext, rsplit1. split.
    - destruct (last_index_of 46 f 0 None) as [j|] eqn:Hj; [|discriminate].
      intros H; injection H as <-.
      destruct (last_index_of_Some 46 f 0 j None Hj) as [(k & -> & Hk & Hnot)|[H _]];
        [|discriminate].
      exists (take k f). split; [|exact Hnot].
      rewrite <- (take_drop k f) at 1. f_equal.
      erewrite drop_S by exact Hk. reflexivity.
    - intros (stem & -> & Hext).
      rewrite last_index_of_app. simpl.
      rewrite last_index_of_absent by exact Hext. simpl.
      rewrite drop_app_ge by lia.
      replace (S (length stem) - length stem)%nat with 1%nat by lia. reflexivity. }
  split; [exact Hok|]. split; [|reflexivity].
  intros f e. split.
  - intros H. pose proof (file_ext_Err f e H) as ->. split; [reflexivity|].
    intros Hin. revert H. unfold file_ext, rsplit1.
    destruct (last_index_of_is_Some 46 f 0 None (or_intror Hin)) as [j ->].
    discriminate.
  - intros [-> Hf]. apply file_ext_dotless, Hf.
Qed.

(** ** Runs with no task *)

Lemma run_mode_no_tasks (m : mode) (has_heif : bool) (exif : pystr -> Res Exif)
    (walk : list (pystr * list pystr * list pystr)) (exclude : list pystr)
    (complete : list pystr -> list pystr) :
  tasks_of (mode_sieve m has_heif) exclude walk = [] -> complete [] = [] ->
  run_mode m has_heif exif walk exclude complete = (Ok tt, [[]]).
Proof.
  intros Hnone Hc. destruct m; simpl in *; unfold main; rewrite Hnone, Hc; reflexivity.
Qed.

(** When no file of the tree passes the sieve and the exclusions, every
    mode returns normally and prints one empty report (an empty line),
    whatever the metadata reader does. *)
Theorem empty_run_prints_empty_report (m : mode) (has_heif : bool)
    (exif : pystr -> Res Exif) (walk : list (pystr * list pystr * list pystr))
    (exclude : list pystr) (complete : list pystr -> list pystr)
    (Hnone : tasks_of (mode_sieve m has_heif) exclude walk = []) (Hc : complete [] = []) :
  run_mode m has_heif exif walk exclude complete = (Ok tt, [[]]).
Proof. apply run_mode_no_tasks; assumption. Qed.

Lemma empty_run_prints_empty_report_witness :
  tasks_of (mode_sieve MCams false) [] [(lit "/root", [], [lit "README"])] = [] /\
  run_mode MCams false (fun _ => Err ExtractionError) [(lit "/root", [], [lit "README"])] []
    (fun l => l) = (Ok tt, [[]]).
Proof.
  split; [reflexivity|].
  exact (empty_run_prints_empty_report MCams false (fun _ => Err ExtractionError)
           [(lit "/root", [], [lit "README"])] [] (fun l => l) eq_refl eq_refl).
Defined.

Lemma tasks_of_empty_pattern (sieve_f : pystr -> bool) (exclude : list pystr)
    (walk : list (pystr * list pystr * list pystr)) :
  [] ∈ exclude -> tasks_of sieve_f exclude walk = [].
Proof.
  intros Hex. unfold tasks_of.
  induction walk as [|[[path dirs] files] walk IH]; simpl; [reflexivity|].
  rewrite IH, app_nil_r.
  induction files as [|f files IHf]; simpl; [reflexivity|].
  replace (existsb (fun x => contains x (os_path_join path f)) exclude) with true; [exact IHf|].
  symmetry. apply existsb_exists. exists []. split; [apply list_elem_of_In, Hex|].
  destruct (os_path_join path f); reflexivity.
Qed.

(** An empty string among the exclusion patterns ([-x ""]) excludes every
    file, since [""] occurs in every path: no task is created and every
    mode prints an empty report. *)
Theorem empty_pattern_excludes_all (m : mode) (has_heif : bool) (exif : pystr -> Res Exif)
    (walk : list (pystr * list pystr * list pystr)) (exclude : list pystr)
    (complete : list pystr -> list pystr)
    (Hex : [] ∈ exclude) (Hc : complete [] = []) :
  tasks_of (mode_sieve m has_heif) exclude walk = [] /\
  run_mode m has_heif exif walk exclude complete = (Ok tt, [[]]).
Proof.
  assert (H := tasks_of_empty_pattern (mode_sieve m has_heif) exclude walk Hex).
  split; [exact H|]. apply run_mode_no_tasks; assumption.
Qed.

Lemma empty_pattern_excludes_all_witness :
  [] ∈ [lit "skip"; []] /\
  run_mode MNocam false (fun _ => Ok (mkExif ∅ ∅)) skip_walk [lit "skip"; []] (fun l => l)
    = (Ok tt, [[]]).
Proof.
  split; [right; left|].
  exact (proj2 (empty_pattern_excludes_all MNocam false (fun _ => Ok (mkExif ∅ ∅)) skip_walk
                  [lit "skip"; []] (fun l => l) ltac:(right; left) eq_refl)).
Defined.

(** ** Where the exception of a failed run comes from *)




(** ** Workers that read the same tags *)

(** nogps lists a file exactly when nogpsdir counts it as a file without
    GPS, and the two raise the same exception on the same file. *)
Theorem nogps_agrees_with_nogpsdir (exif : pystr -> Res Exif) (f : pystr) (Hf : f <> []) :
  (nogps exif f = Ok f <-> nogpsdir_worker exif f = Ok (dirname f, true)) /\
  (nogps exif f = Ok [] <-> nogpsdir_worker exif f = Ok (dirname f, false)) /\
  (forall x, nogps exif f = Err x <-> nogpsdir_worker exif f = Err x).
Proof.
  unfold nogps, nogpsdir_worker. destruct (exif f) as [e|x]; simpl.
  - destruct (_ || _); split; (split; [intros H; congruence|intros H; congruence])
      || (split; [split; intros H; congruence | intros x; split; intros H; discriminate]).
  - split; [split; intros H; discriminate|]. split; [split; intros H; discriminate|].
    intros y; split; intros H; injection H as ->; reflexivity.
Qed.

Lemma nogps_agrees_with_nogpsdir_witness :
  lit "/p/a.jpg" <> [] /\
  nogpsdir_worker (fun _ => Ok (mkExif ∅ ∅)) (lit "/p/a.jpg") = Ok (lit "/p", true) /\
  nogps (fun _ => Ok (mkExif ∅ ∅)) (lit "/p/a.jpg") = Ok (lit "/p/a.jpg").
Proof.
  split; [discriminate|]. split; [reflexivity|].
  apply (proj1 (nogps_agrees_with_nogpsdir (fun _ => Ok (mkExif ∅ ∅)) (lit "/p/a.jpg")
                  ltac:(discriminate))).
  reflexivity.
Defined.

(** ** key_value as a dict *)

Lemma key_value_fold_keys (rs : list (pystr * pystr)) :
  map fst (fold_left key_value_step rs [])
    = rev (remove_dups (rev (map fst (filter (fun r => r.1 <> []) rs)))).
Proof.
  induction rs as [|[f s] rs IH] using rev_ind; simpl; [reflexivity|].
  rewrite fold_left_app. simpl. rewrite filter_app, filter_cons, filter_nil. simpl.
  set (acc := fold_left key_value_step rs []) in *. unfold key_value_step. case_bool_decide as Hf; case_decide; try contradiction;
    [|rewrite app_nil_r; exact IH].
  rewrite dict_keys_upd_order, IH, map_app, rev_app_distr. simpl.
  set (L := rev (map fst (filter (fun r : pystr * pystr => r.1 <> []) rs))).
  unfold decide_rel.
  destruct (decide (f ∈ L)) as [Hin|Hin].
  - rewrite decide_True by (rewrite elem_of_rev_iff, elem_of_remove_dups; exact Hin).
    destruct (list_elem_of_dec f L); [reflexivity|contradiction].
  - rewrite decide_False by (rewrite elem_of_rev_iff, elem_of_remove_dups; exact Hin).
    destruct (list_elem_of_dec f L); [contradiction|reflexivity].
Qed.

Lemma key_value_fold_get (rs : list (pystr * pystr)) (k : pystr) :
  dict_get k (fold_left key_value_step rs [])
    = if decide (k = []) then None else last (map snd (filter (fun r => r.1 = k) rs)).
Proof.
  induction rs as [|[f s] rs IH] using rev_ind; simpl; [case_decide; reflexivity|].
  rewrite fold_left_app. simpl. rewrite filter_app, filter_cons, filter_nil. simpl.
  set (acc := fold_left key_value_step rs []) in *. unfold key_value_step. case_bool_decide as Hf.
  - rewrite dict_get_upd. destruct (decide (f = k)) as [->|Hfk].
    + rewrite decide_False by exact Hf. rewrite map_app. cbn [map]. rewrite last_snoc. reflexivity.
    + rewrite app_nil_r. exact IH.
  - subst f. rewrite IH.
    destruct (decide (k = [])) as [->|Hk]; [reflexivity|].
    rewrite decide_False by congruence. rewrite app_nil_r. reflexivity.
Qed.

Lemma key_value_fold_NoDup (rs : list (pystr * pystr)) :
  NoDup (map fst (fold_left key_value_step rs [])).
Proof.
  rewrite key_value_fold_keys, NoDup_ListNoDup. apply NoDup_rev. rewrite <- NoDup_ListNoDup. apply NoDup_remove_dups.
Qed.

(** The key_value collector behaves as the dict it fills: the report has
    one line per distinct non-empty path, in the order in which each path
    first arrived, showing the value of the path's last result; results
    with an empty path are dropped. *)
Theorem key_value_dict (rs : list (pystr * pystr)) :
  key_value (map Ok rs)
    = Ok (join newline (map key_value_line (fold_left key_value_step rs []))) /\
  map fst (fold_left key_value_step rs [])
    = rev (remove_dups (rev (map fst (filter (fun r => r.1 <> []) rs)))) /\
  (forall k v, (k, v) ∈ fold_left key_value_step rs [] <->
     k <> [] /\ last (map snd (filter (fun r => r.1 = k) rs)) = Some v).
Proof.
  split; [unfold key_value; rewrite consume_map_Ok; reflexivity|].
  split; [apply key_value_fold_keys|].
  intros k v. rewrite dict_get_elem by apply key_value_fold_NoDup.
  rewrite key_value_fold_get. destruct (decide (k = [])) as [Hk|Hk].
  - split; [discriminate | intros [Hne _]; contradiction].
  - split; [intros Hl; split; assumption | intros [_ Hl]; exact Hl].
Qed.












(** ** cams raises on a non-text Make or Model *)

(** For a file whose metadata was read, cams returns normally exactly
    when Make and Model are each absent or text; a bytes Make (or a bytes
    Model next to a text or absent Make) makes it raise [TypeError], a
    number or a tuple [AttributeError]; Make is looked at first. *)
Theorem cams_errors (exif : pystr -> Res Exif) (f : pystr) (e : Exif) (He : exif f = Ok e) :
  ((exists r, cams exif f = Ok r) <->
     forall k v, k = Make \/ k = Model -> base e !! k = Some v -> exists s, v = TStr s) /\
  (forall b, base e !! Make = Some (TBytes b) -> cams exif f = Err TypeError) /\
  (forall v, base e !! Make = Some v -> (exists z, v = TInt z) \/ (exists vs, v = TRats vs) ->
     cams exif f = Err AttributeError) /\
  (forall b, (forall v, base e !! Make = Some v -> exists s, v = TStr s) ->
     base e !! Model = Some (TBytes b) -> cams exif f = Err TypeError).
Proof.
  unfold cams. rewrite He. simpl. split; [|split; [|split]].
  - split.
    + intros (r & Hr) k v [-> | ->] Hk; rewrite Hk in Hr; simpl in Hr.
      * destruct v; simpl in Hr; try discriminate; eauto.
      * destruct (base e !! Make) as [[t|b|z|vs]|]; simpl in Hr; try discriminate;
          destruct v; simpl in Hr; try discriminate; eauto.
    + intros Hall.
      destruct (base e !! Make) as [vm|] eqn:Hm;
        [destruct (Hall Make vm (or_introl eq_refl) Hm) as [sm ->]|];
      (destruct (base e !! Model) as [vd|] eqn:Hd;
        [destruct (Hall Model vd (or_intror eq_refl) Hd) as [sd ->]|]);
      simpl; eauto.
  - intros b Hb. rewrite Hb. reflexivity.
  - intros v Hv [(z & ->)|(vs & ->)]; rewrite Hv; reflexivity.
  - intros b Hm Hd. rewrite Hd.
    destruct (base e !! Make) as [vm|] eqn:Hm'; [destruct (Hm vm eq_refl) as [sm ->]|];
      reflexivity.
Qed.

Lemma cams_errors_witness :
  (fun _ : pystr => Ok (mkExif {[Make := TBytes (blit "Canon")]} ∅)) (lit "a.jpg")
    = Ok (mkExif {[Make := TBytes (blit "Canon")]} ∅) /\
  cams (fun _ => Ok (mkExif {[Make := TBytes (blit "Canon")]} ∅)) (lit "a.jpg") = Err TypeError.
Proof.
  split; [reflexivity|].
  exact (proj1 (proj2 (cams_errors (fun _ => Ok (mkExif {[Make := TBytes (blit "Canon")]} ∅))
                         (lit "a.jpg") _ eq_refl)) (blit "Canon") eq_refl).
Defined.

(** ** usercomment_std labels *)

Lemma assoc_bytes_Some_elem (k : list byte) (d : list (list byte * pystr)) (v : pystr) :
  assoc_bytes k d = Some v -> v ∈ map snd d.
Proof.
  induction d as [|[m w] d IH]; simpl; [discriminate|].
  case_decide; [intros Hv; injection Hv as ->; left | intros Hv; right; exact (IH Hv)].
Qed.

(** usercomment_std always answers one of its seven labels, or raises the
    exception of the metadata reader or [AssertionError] (a UserComment
    that is neither text nor bytes): it decodes nothing, so never raises
    [UnicodeDecodeError]. For a bytes UserComment the label is one of the
    four encoding names exactly when its first 8 bytes are one of the
    markers. *)
Theorem usercomment_std_outcomes (exif : pystr -> Res Exif) (f : pystr) :
  (forall l, usercomment_std exif f = Ok l -> l ∈ usercomment_std_labels) /\
  (forall x, usercomment_std exif f = Err x -> exif f = Err x \/ x = AssertionError) /\
  (forall e b, exif f = Ok e -> get_ifd e IFD_Exif !! UserComment = Some (TBytes b) ->
     ((exists l, usercomment_std exif f = Ok l /\ l ∈ map snd usercomment_encoding)
      <-> take 8 b ∈ map fst usercomment_encoding)).
Proof.
  assert (Hnc : lit "non-compliant (non-std bytes)" ∉ map snd usercomment_encoding).
  { intros H. vm_compute in H.
    repeat (apply elem_of_cons in H as [H|H]; [discriminate|]). inversion H. }
  unfold usercomment_std. split; [|split].
  - intros l. destruct (exif f) as [e|x]; simpl; [|discriminate].
    destruct (get_ifd e IFD_Exif !! UserComment) as [[t|b|z|vs]|]; simpl; try discriminate;
      intros Hl; injection Hl as <-.
    + apply list_elem_of_In. simpl. auto 10.
    + destruct (encoding_lookup (take 8 b)) as [l|] eqn:Hlk; simpl.
      * unfold usercomment_std_labels. apply elem_of_app; right.
        exact (assoc_bytes_Some_elem _ _ _ Hlk).
      * apply list_elem_of_In. simpl. auto 10.
    + apply list_elem_of_In. simpl. auto 10.
  - intros x. destruct (exif f) as [e|y]; simpl; [|intros H; injection H as ->; left; reflexivity].
    destruct (get_ifd e IFD_Exif !! UserComment) as [[t|b|z|vs]|]; simpl; try discriminate;
      intros H; injection H as <-; right; reflexivity.
  - intros e b He Hb. rewrite He. simpl. rewrite Hb. rewrite <- encoding_lookup_is_Some.
    destruct (encoding_lookup (take 8 b)) as [l|] eqn:Hlk; simpl.
    + split; [intros _; eauto|]. intros _. exists l. split; [reflexivity|].
      exact (assoc_bytes_Some_elem _ _ _ Hlk).
    + split; [|intros [? H]; discriminate].
      intros (l & Hl & Hin). injection Hl as <-. contradiction.
Qed.

(** ** Counts add up *)

Lemma stats_step_sum (res : list (pystr * nat)) (v : pystr) :
  sum_list_with snd (stats_step res v) = S (sum_list_with snd res).
Proof.
  unfold stats_step. induction res as [|[k c] res IH]; simpl; [reflexivity|].
  case_decide; simpl; [reflexivity|]. rewrite IH. lia.
Qed.

Lemma nogpsdir_step_sum (res : list (pystr * (nat * nat))) (r : pystr * bool) :
  sum_list_with (fun kv => fst (snd kv)) (nogpsdir_step res r)
    = (sum_list_with (fun kv => fst (snd kv)) res + if r.2 then 1 else 0)%nat.
Proof.
  destruct r as [d b]. unfold nogpsdir_step. simpl.
  induction res as [|[k [t fl]] res IH]; simpl; [destruct b; reflexivity|].
  case_decide; simpl; [destruct b; simpl; lia|]. rewrite IH. lia.
Qed.

Lemma sum_list_with_perm {A} (w : A -> nat) (l l' : list A) :
  l ≡ₚ l' -> sum_list_with w l = sum_list_with w l'.
Proof.
  induction 1; simpl; try lia.
Qed.

Lemma sum_list_with_filter_pos {A} (w : A -> nat) (l : list A) :
  sum_list_with w (filter (fun x => (0 < w x)%nat) l) = sum_list_with w l.
Proof.
  induction l as [|x l IH]; simpl; [reflexivity|]. rewrite filter_cons.
  case_decide; simpl; rewrite IH; lia.
Qed.

(** The counts the stats collector prints add up to the number of results
    it consumed, and the no-GPS counts the nogpsdir collector prints add up
    to the number of files flagged as having no GPS position. *)
Theorem collector_counts_total :
  (forall rs : list pystr,
     sum_list_with snd (stats_rows (fold_left stats_step rs [])) = length rs) /\
  (forall rs : list (pystr * bool),
     sum_list_with (fun kv => fst (snd kv)) (nogpsdir_rows (fold_left nogpsdir_step rs []))
       = length (filter (fun r => r.2 = true) rs)).
Proof.
  split.
  - intros rs. unfold stats_rows. rewrite (sum_list_with_perm _ _ _ (sort_by_perm _ _)).
    induction rs as [|v rs IH] using rev_ind; simpl; [reflexivity|].
    rewrite fold_left_app. simpl. rewrite stats_step_sum, IH, length_app. simpl. lia.
  - intros rs. unfold nogpsdir_rows.
    rewrite (sum_list_with_filter_pos (fun kv : pystr * (nat * nat) => fst (snd kv))).
    rewrite (sum_list_with_perm _ _ _ (sort_by_perm _ _)).
    induction rs as [|r rs IH] using rev_ind; simpl; [reflexivity|].
    rewrite fold_left_app. simpl. rewrite nogpsdir_step_sum, IH, filter_app, length_app.
    assert (Hr : length (filter (fun r0 : pystr * bool => r0.2 = true) [r])
                 = if r.2 then 1%nat else 0%nat) by (destruct r as [d []]; reflexivity).
    rewrite Hr. lia.
Qed.

(** ** UTF-8 decoding loses nothing *)

Ltac zbool_cases :=
  repeat (match goal with
          | |- context [Z.ltb ?x ?y] => destruct (Z.ltb_spec x y)
          | |- context [Z.leb ?x ?y] => destruct (Z.leb_spec x y)
          end; simpl; try (exfalso; lia)).

Lemma utf8_decode_z_1 (b0 : Z) (r : list Z) :
  b0 < 128 -> utf8_decode_z (b0 :: r) = cons b0 <$> utf8_decode_z r.
Proof. intros H. simpl. rewrite (proj2 (Z.ltb_lt b0 128) H). reflexivity. Qed.

Lemma utf8_decode_z_2 (b0 b1 : Z) (r : list Z) :
  194 <= b0 < 224 -> 128 <= b1 < 192 ->
  utf8_decode_z (b0 :: b1 :: r) = cons ((b0 - 192) * 64 + (b1 - 128)) <$> utf8_decode_z r.
Proof. intros H0 H1. simpl. unfold is_cont. zbool_cases; reflexivity. Qed.

Lemma utf8_decode_z_3 (b0 b1 b2 : Z) (r : list Z) :
  224 <= b0 < 240 -> 128 <= b1 < 192 -> 128 <= b2 < 192 ->
  scalar ((b0 - 224) * 4096 + (b1 - 128) * 64 + (b2 - 128)) ->
  2048 <= (b0 - 224) * 4096 + (b1 - 128) * 64 + (b2 - 128) ->
  utf8_decode_z (b0 :: b1 :: b2 :: r)
    = cons ((b0 - 224) * 4096 + (b1 - 128) * 64 + (b2 - 128)) <$> utf8_decode_z r.
Proof. intros H0 H1 H2 [_ Hs] H3. simpl. unfold is_cont. zbool_cases; reflexivity. Qed.

Lemma utf8_decode_z_4 (b0 b1 b2 b3 : Z) (r : list Z) :
  240 <= b0 < 245 -> 128 <= b1 < 192 -> 128 <= b2 < 192 -> 128 <= b3 < 192 ->
  65536 <= (b0 - 240) * 262144 + (b1 - 128) * 4096 + (b2 - 128) * 64 + (b3 - 128) <= 1114111 ->
  utf8_decode_z (b0 :: b1 :: b2 :: b3 :: r)
    = cons ((b0 - 240) * 262144 + (b1 - 128) * 4096 + (b2 - 128) * 64 + (b3 - 128))
        <$> utf8_decode_z r.
Proof. intros H0 H1 H2 H3 H4. simpl. unfold is_cont. zbool_cases; reflexivity. Qed.

Lemma utf8_decode_encode_cp (c : Z) (r : list Z) :
  scalar c -> utf8_decode_z (utf8_encode_cp c ++ r) = cons c <$> utf8_decode_z r.
Proof.
  intros [Hc Hs]. unfold utf8_encode_cp.
  assert (D2 : c / 4096 = c / 64 / 64) by (rewrite Z.div_div by lia; reflexivity).
  assert (D3 : c / 262144 = c / 64 / 64 / 64) by (rewrite !Z.div_div by lia; reflexivity).
  rewrite D2, D3.
  pose proof (Z.div_mod c 64 ltac:(lia)) as E0. pose proof (Z.mod_pos_bound c 64 ltac:(lia)) as B0.
  set (q1 := c / 64) in *. set (r0 := c mod 64) in *.
  pose proof (Z.div_mod q1 64 ltac:(lia)) as E1. pose proof (Z.mod_pos_bound q1 64 ltac:(lia)) as B1.
  set (q2 := q1 / 64) in *. set (r1 := q1 mod 64) in *.
  pose proof (Z.div_mod q2 64 ltac:(lia)) as E2. pose proof (Z.mod_pos_bound q2 64 ltac:(lia)) as B2.
  set (q3 := q2 / 64) in *. set (r2 := q2 mod 64) in *.
  clearbody q1 r0 q2 r1 q3 r2.
  destruct (Z.ltb_spec c 128); [cbn [app]; rewrite utf8_decode_z_1 by lia; reflexivity|].
  destruct (Z.ltb_spec c 2048); [|destruct (Z.ltb_spec c 65536)]; cbn [app].
  - rewrite utf8_decode_z_2 by lia. do 2 f_equal. lia.
  - rewrite utf8_decode_z_3 by (unfold scalar; lia). do 2 f_equal. lia.
  - rewrite utf8_decode_z_4 by lia. do 2 f_equal. lia.
Qed.

Lemma utf8_decode_encode (s : pystr) :
  Forall scalar s -> utf8_decode_z (utf8_encode s) = Some s.
Proof.
  induction 1 as [|c s Hc Hs IH]; [reflexivity|].
  unfold utf8_encode. simpl. rewrite utf8_decode_encode_cp by exact Hc.
  fold (utf8_encode s). rewrite IH. reflexivity.
Qed.

Lemma utf8_encode_cp_2 (a b : Z) :
  2 <= a < 32 -> 0 <= b < 64 -> utf8_encode_cp (a * 64 + b) = [192 + a; 128 + b].
Proof.
  intros Ha Hb. unfold utf8_encode_cp.
  assert (D : (a * 64 + b) / 64 = a) by (symmetry; apply (Z.div_unique_pos _ _ _ b); lia).
  assert (M : (a * 64 + b) mod 64 = b) by (symmetry; apply (Z.mod_unique_pos _ _ a); lia).
  rewrite D, M. zbool_cases; reflexivity.
Qed.

Lemma utf8_encode_cp_3 (a b d : Z) :
  0 <= a < 16 -> 0 <= b < 64 -> 0 <= d < 64 -> 2048 <= a * 4096 + b * 64 + d ->
  utf8_encode_cp (a * 4096 + b * 64 + d) = [224 + a; 128 + b; 128 + d].
Proof.
  intros Ha Hb Hd Hc. unfold utf8_encode_cp.
  assert (D1 : (a * 4096 + b * 64 + d) / 64 = a * 64 + b)
    by (symmetry; apply (Z.div_unique_pos _ _ _ d); lia).
  assert (D2 : (a * 4096 + b * 64 + d) / 4096 = a)
    by (symmetry; apply (Z.div_unique_pos _ _ _ (b * 64 + d)); lia).
  assert (M0 : (a * 4096 + b * 64 + d) mod 64 = d)
    by (symmetry; apply (Z.mod_unique_pos _ _ (a * 64 + b)); lia).
  assert (M1 : (a * 64 + b) mod 64 = b) by (symmetry; apply (Z.mod_unique_pos _ _ a); lia).
  rewrite D1, D2, M0, M1. zbool_cases; reflexivity.
Qed.

Lemma utf8_encode_cp_4 (a b d e : Z) :
  0 <= a -> 0 <= b < 64 -> 0 <= d < 64 -> 0 <= e < 64 ->
  65536 <= a * 262144 + b * 4096 + d * 64 + e ->
  utf8_encode_cp (a * 262144 + b * 4096 + d * 64 + e) = [240 + a; 128 + b; 128 + d; 128 + e].
Proof.
  intros Ha Hb Hd He Hc. unfold utf8_encode_cp.
  assert (D1 : (a * 262144 + b * 4096 + d * 64 + e) / 64 = a * 4096 + b * 64 + d)
    by (symmetry; apply (Z.div_unique_pos _ _ _ e); lia).
  assert (D2 : (a * 262144 + b * 4096 + d * 64 + e) / 4096 = a * 64 + b)
    by (symmetry; apply (Z.div_unique_pos _ _ _ (d * 64 + e)); lia).
  assert (D3 : (a * 262144 + b * 4096 + d * 64 + e) / 262144 = a)
    by (symmetry; apply (Z.div_unique_pos _ _ _ (b * 4096 + d * 64 + e)); lia).
  assert (M0 : (a * 262144 + b * 4096 + d * 64 + e) mod 64 = e)
    by (symmetry; apply (Z.mod_unique_pos _ _ (a * 4096 + b * 64 + d)); lia).
  assert (M1 : (a * 4096 + b * 64 + d) mod 64 = d)
    by (symmetry; apply (Z.mod_unique_pos _ _ (a * 64 + b)); lia).
  assert (M2 : (a * 64 + b) mod 64 = b) by (symmetry; apply (Z.mod_unique_pos _ _ a); lia).
  rewrite D1, D2, D3, M0, M1, M2. zbool_cases; reflexivity.
Qed.

Lemma utf8_encode_decode_z (n : nat) (bs : list Z) (s : pystr) :
  (length bs <= n)%nat -> Forall (fun b => 0 <= b <= 255) bs ->
  utf8_decode_z bs = Some s -> utf8_encode s = bs /\ Forall scalar s.
Proof.
  revert bs s. induction n as [|n IH]; intros bs s Hlen Hb Hd.
  { destruct bs; [|simpl in Hlen; lia]. simpl in Hd. injection Hd as <-. split; constructor. }
  destruct bs as [|b0 r]; [simpl in Hd; injection Hd as <-; split; constructor|].
  apply Forall_cons in Hb as [Hb0 Hr]. simpl in Hlen.
  destruct (b0 <? 128) eqn:H1.
  { apply Z.ltb_lt in H1. rewrite utf8_decode_z_1 in Hd by exact H1.
    destruct (utf8_decode_z r) as [s'|] eqn:Hs'; simpl in Hd; [|discriminate].
    injection Hd as <-. destruct (IH r s' ltac:(lia) Hr Hs') as [He Hsc].
    unfold utf8_encode in *. simpl. rewrite He.
    split; [unfold utf8_encode_cp; rewrite (proj2 (Z.ltb_lt b0 128) H1); reflexivity|].
    constructor; [unfold scalar; lia | exact Hsc]. }
  apply Z.ltb_ge in H1. simpl in Hd. rewrite (proj2 (Z.ltb_ge b0 128) H1) in Hd.
  destruct ((194 <=? b0) && (b0 <? 224)) eqn:H2.
  { apply andb_true_iff in H2 as [H2a H2b]. apply Z.leb_le in H2a. apply Z.ltb_lt in H2b.
    destruct r as [|b1 r1]; [discriminate|]. apply Forall_cons in Hr as [Hb1 Hr1].
    destruct (is_cont b1) eqn:Hc1; [|discriminate]. unfold is_cont in Hc1.
    apply andb_true_iff in Hc1 as [Hc1a Hc1b]. apply Z.leb_le in Hc1a. apply Z.ltb_lt in Hc1b.
    destruct (utf8_decode_z r1) as [s'|] eqn:Hs'; simpl in Hd; [|discriminate].
    injection Hd as <-. simpl in Hlen. destruct (IH r1 s' ltac:(lia) Hr1 Hs') as [He Hsc].
    unfold utf8_encode in *. simpl. rewrite He. split.
    - rewrite utf8_encode_cp_2 by lia. simpl. do 2 f_equal; lia.
    - constructor; [unfold scalar; lia | exact Hsc]. }
  destruct ((224 <=? b0) && (b0 <? 240)) eqn:H3.
  { apply andb_true_iff in H3 as [H3a H3b]. apply Z.leb_le in H3a. apply Z.ltb_lt in H3b.
    destruct r as [|b1 [|b2 r2]]; try discriminate.
    apply Forall_cons in Hr as [Hb1 Hr]. apply Forall_cons in Hr as [Hb2 Hr2].
    match type of Hd with
    | (if ?cond then _ else _) = _ => destruct cond eqn:Hcond; [|discriminate]
    end.
    unfold is_cont in Hcond. repeat rewrite andb_true_iff in Hcond.
    rewrite negb_true_iff, andb_false_iff in Hcond.
    destruct Hcond as [[[[Ha Hb'] [Hc Hd']] He'] Hf].
    apply Z.leb_le in Ha, Hc, He'. apply Z.ltb_lt in Hb', Hd'.
    assert (Hf' : ~ (55296 <= (b0 - 224) * 4096 + (b1 - 128) * 64 + (b2 - 128) <= 57343))
      by (destruct Hf as [Hf|Hf]; apply Z.leb_gt in Hf; lia).
    destruct (utf8_decode_z r2) as [s'|] eqn:Hs'; simpl in Hd; [|discriminate].
    injection Hd as <-. simpl in Hlen. destruct (IH r2 s' ltac:(lia) Hr2 Hs') as [He Hsc].
    unfold utf8_encode in *. simpl. rewrite He. split.
    - rewrite utf8_encode_cp_3 by lia. simpl. do 3 f_equal; lia.
    - constructor; [unfold scalar; lia | exact Hsc]. }
  destruct ((240 <=? b0) && (b0 <? 245)) eqn:H4; [|discriminate].
  apply andb_true_iff in H4 as [H4a H4b]. apply Z.leb_le in H4a. apply Z.ltb_lt in H4b.
  destruct r as [|b1 [|b2 [|b3 r3]]]; try discriminate.
  apply Forall_cons in Hr as [Hb1 Hr]. apply Forall_cons in Hr as [Hb2 Hr].
  apply Forall_cons in Hr as [Hb3 Hr3].
  match type of Hd with
  | (if ?cond then _ else _) = _ => destruct cond eqn:Hcond; [|discriminate]
  end.
  unfold is_cont in Hcond. repeat rewrite andb_true_iff in Hcond.
  destruct Hcond as [[[[[Ha Hb'] [Hc Hd']] [He' Hf]] Hg] Hh].
  apply Z.leb_le in Ha, Hc, He', Hg, Hh. apply Z.ltb_lt in Hb', Hd', Hf.
  destruct (utf8_decode_z r3) as [s'|] eqn:Hs'; simpl in Hd; [|discriminate].
  injection Hd as <-. simpl in Hlen. destruct (IH r3 s' ltac:(lia) Hr3 Hs') as [He Hsc].
  unfold utf8_encode in *. simpl. rewrite He. split.
  - rewrite utf8_encode_cp_4 by lia. simpl. do 4 f_equal; lia.
  - constructor; [unfold scalar; lia | exact Hsc].
Qed.

Lemma byte_val_range (b : byte) : 0 <= byte_val b <= 255.
Proof. unfold byte_val. pose proof (Byte.to_N_bounded b). lia. Qed.

(** decode is lossless and strict: the text it returns consists of
    Unicode scalar values and encodes back to exactly the bytes it was
    given, and every list of scalar values is decoded back from its
    encoding. So the text usercomment prints for a bytes UserComment
    determines the bytes it was decoded from. *)
Theorem decode_roundtrip :
  (forall (bs : list byte) (s : pystr),
     decode bs = Ok s -> utf8_encode s = map byte_val bs /\ Forall scalar s) /\
  (forall s : pystr, Forall scalar s -> utf8_decode_z (utf8_encode s) = Some s).
Proof.
  split; [|exact utf8_decode_encode].
  intros bs s. unfold decode.
  destruct (utf8_decode_z (map byte_val bs)) as [s'|] eqn:Hd; [|discriminate].
  intros Hs; injection Hs as <-.
  apply (utf8_encode_decode_z (length (map byte_val bs))); [lia| |exact Hd].
  apply Forall_forall. intros b Hb. apply list_elem_of_In, in_map_iff in Hb as (x & <- & _).
  apply byte_val_range.
Qed.

(** ** two_level rows: counted pairs in maker, model order *)

Lemma str_ltb_irrefl (a : pystr) : str_ltb a a = false.
Proof.
  induction a as [|x a IH]; simpl; [reflexivity|]. rewrite Z.ltb_irrefl, Z.eqb_refl. exact IH.
Qed.

Lemma str_ltb_trans (a b c : pystr) :
  str_ltb a b = true -> str_ltb b c = true -> str_ltb a c = true.
Proof.
  revert b c. induction a as [|x a IH]; intros [|y b] [|z c]; simpl; try discriminate; auto.
  rewrite !orb_true_iff, !andb_true_iff, !Z.ltb_lt, !Z.eqb_eq.
  intros [H1|[-> H1]] [H2|[-> H2]]; [left; lia | left; lia | left; lia |].
  right. split; [reflexivity | eapply IH; eauto].
Qed.

Lemma str_ltb_total (a b : pystr) : a <> b -> str_ltb a b = true \/ str_ltb b a = true.
Proof.
  revert b. induction a as [|x a IH]; intros [|y b] Hne; simpl; auto; try congruence.
  rewrite !orb_true_iff, !andb_true_iff, !Z.ltb_lt, !Z.eqb_eq.
  destruct (Z.lt_trichotomy x y) as [H|[<-|H]]; [left; left; lia | | right; left; lia].
  assert (Hab : a <> b) by congruence.
  destruct (IH b Hab) as [H'|H']; [left|right]; right; auto.
Qed.

Lemma StronglySorted_strict {A} (le lt : A -> A -> Prop) (l : list A) :
  (forall a b, le a b -> a <> b -> lt a b) -> NoDup l -> StronglySorted le l ->
  StronglySorted lt l.
Proof.
  intros Hlt Hnd Hs. induction Hs as [|x l Hs IH Hf]; constructor.
  - apply IH. apply NoDup_cons in Hnd as [_ Hnd]. exact Hnd.
  - apply NoDup_cons in Hnd as [Hx _]. apply Forall_forall. intros y Hy.
    apply Hlt; [exact (proj1 (Forall_forall _ _) Hf y Hy)|]. intros ->. contradiction.
Qed.

Lemma StronglySorted_app {A} (R : A -> A -> Prop) (l1 l2 : list A) :
  StronglySorted R l1 -> StronglySorted R l2 ->
  (forall x y, x ∈ l1 -> y ∈ l2 -> R x y) -> StronglySorted R (l1 ++ l2).
Proof.
  intros H1 H2 Hx. induction H1 as [|x l1 H1 IH Hf]; simpl; [exact H2|]. constructor.
  - apply IH. intros a b Ha Hb. apply Hx; [right|]; assumption.
  - apply Forall_app. split; [exact Hf|]. apply Forall_forall. intros y Hy.
    apply Hx; [left | exact Hy].
Qed.

Lemma map_fst_fmap {A B} (l : list (A * B)) : map fst l = l.*1.
Proof. induction l as [|[a b] l IH]; simpl; [reflexivity|]. rewrite IH. reflexivity. Qed.

Lemma sorted_keys_spec {V} (m : gmap pystr V) :
  (forall k, k ∈ sorted_keys m <-> is_Some (m !! k)) /\
  StronglySorted (fun a b => str_ltb a b = true) (sorted_keys m).
Proof.
  assert (Hp : sorted_keys m ≡ₚ map fst (map_to_list m)) by apply sort_by_perm.
  split.
  - intros k. rewrite Hp, map_fst_fmap. split.
    + intros Hk. apply list_elem_of_fmap in Hk as ([k' v] & -> & Hin).
      apply elem_of_map_to_list in Hin. simpl. eauto.
    + intros [v Hv]. apply list_elem_of_fmap. exists (k, v). split; [reflexivity|].
      apply elem_of_map_to_list. exact Hv.
  - apply (StronglySorted_strict (fun a b => str_leb a b = true)).
    + intros a b Hab Hne. unfold str_leb in Hab. apply negb_true_iff in Hab.
      destruct (str_ltb_total a b Hne) as [H|H]; [exact H | congruence].
    + rewrite Hp, map_fst_fmap. apply NoDup_fst_map_to_list.
    + apply Sorted_StronglySorted.
      * intros a b c. unfold str_leb. rewrite !negb_true_iff. intros Hab Hbc.
        destruct (str_ltb c a) eqn:Hca; [|reflexivity]. exfalso.
        destruct (decide (a = b)) as [<-|Hne]; [congruence|].
        destruct (str_ltb_total a b Hne) as [H|H]; [|congruence].
        rewrite (str_ltb_trans c a b Hca H) in Hbc. discriminate.
      * apply (sort_by_sorted _ (fun a b => str_leb a b = true)); [reflexivity|].
        intros a b. unfold str_leb. rewrite !negb_true_iff.
        destruct (str_ltb b a) eqn:Hba; [|left; reflexivity].
        destruct (str_ltb a b) eqn:Hab; [|right; reflexivity].
        pose proof (str_ltb_trans _ _ _ Hab Hba) as H. rewrite str_ltb_irrefl in H.
        discriminate.
Qed.

Lemma two_level_rows_elem (stat : gmap pystr (gmap pystr nat)) (mk md : pystr) (n : nat) :
  (mk, md, n) ∈ two_level_rows stat <-> default ∅ (stat !! mk) !! md = Some n.
Proof.
  unfold two_level_rows. rewrite list_elem_of_In, in_flat_map. split.
  - intros (mk' & Hmk & Hin). apply in_map_iff in Hin as (md' & Heq & Hmd).
    injection Heq as <- <- <-.
    apply list_elem_of_In, (proj1 (sorted_keys_spec _)) in Hmd as [n' Hn']. rewrite Hn'.
    reflexivity.
  - intros Hn. destruct (stat !! mk) as [x|] eqn:Hx; simpl in Hn;
      [|rewrite lookup_empty in Hn; discriminate].
    exists mk. split.
    + apply list_elem_of_In, (proj1 (sorted_keys_spec _)). eauto.
    + rewrite Hx. simpl. apply in_map_iff. exists md. rewrite Hn. split; [reflexivity|].
      apply list_elem_of_In, (proj1 (sorted_keys_spec _)). eauto.
Qed.

Lemma two_level_rows_sorted (stat : gmap pystr (gmap pystr nat)) :
  StronglySorted row_lt (two_level_rows stat).
Proof.
  unfold two_level_rows. destruct (sorted_keys_spec stat) as [_ Hs].
  induction Hs as [|mk l Hs IH Hf]; simpl; [constructor|].
  apply StronglySorted_app; [| exact IH |].
  - destruct (sorted_keys_spec (default ∅ (stat !! mk))) as [_ Hm].
    induction Hm as [|md ms Hm IHm Hfm]; simpl; constructor; [exact IHm|].
    apply Forall_forall. intros r Hr. apply list_elem_of_In, in_map_iff in Hr as (md' & <- & Hin).
    right. split; [reflexivity|]. simpl.
    exact (proj1 (Forall_forall _ _) Hfm md' (proj2 (list_elem_of_In _ _) Hin)).
  - intros x y Hx Hy. left.
    apply list_elem_of_In, in_map_iff in Hx as (md & <- & _). simpl.
    apply list_elem_of_In, in_flat_map in Hy as (mk' & Hmk' & Hy).
    apply in_map_iff in Hy as (md' & <- & _). simpl.
    exact (proj1 (Forall_forall _ _) Hf mk' (proj2 (list_elem_of_In _ _) Hmk')).
Qed.

Lemma two_level_fold_lookup (rs : list (pystr * pystr)) (mk md : pystr) :
  default ∅ (fold_left two_level_step rs ∅ !! mk) !! md
    = if decide (occurrences (mk, md) rs = 0%nat) then None else Some (occurrences (mk, md) rs).
Proof.
  induction rs as [|[mk' md'] rs IH] using rev_ind; simpl.
  - rewrite lookup_empty. reflexivity.
  - rewrite fold_left_app, occurrences_snoc. simpl.
    set (stat := fold_left two_level_step rs ∅) in *.
    destruct (decide (mk' = mk)) as [<-|Hmk].
    + rewrite lookup_insert_eq. simpl. destruct (decide (md' = md)) as [<-|Hmd].
      * rewrite lookup_insert_eq.
        destruct (decide ((mk', md') = (mk', md'))) as [_|C]; [|congruence]. rewrite IH.
        destruct (decide (occurrences (mk', md') rs = 0%nat)) as [H0|H0]; simpl;
          rewrite decide_False by lia; f_equal; lia.
      * rewrite lookup_insert_ne by exact Hmd.
        destruct (decide ((mk', md') = (mk', md))) as [C|_]; [congruence|].
        rewrite IH, Nat.add_0_r. reflexivity.
    + rewrite lookup_insert_ne by exact Hmk.
      destruct (decide ((mk', md') = (mk, md))) as [C|_]; [congruence|].
      rewrite IH, Nat.add_0_r. reflexivity.
Qed.

(** two_level prints one row for each distinct (maker, model) pair among
    the results, with the number of results naming that pair, and no other
    row; the rows are ordered by maker, then by model, in Python's string
    order, so no pair is printed twice. *)
Theorem two_level_rows_spec (rs : list (pystr * pystr)) :
  two_level (map Ok rs) = Ok (two_level_render (fold_left two_level_step rs ∅)) /\
  (forall mk md n, (mk, md, n) ∈ two_level_rows (fold_left two_level_step rs ∅) <->
     n = occurrences (mk, md) rs /\ n <> 0%nat) /\
  StronglySorted row_lt (two_level_rows (fold_left two_level_step rs ∅)).
Proof.
  split; [unfold two_level; rewrite consume_map_Ok; reflexivity|].
  split; [|apply two_level_rows_sorted].
  intros mk md n. rewrite two_level_rows_elem, two_level_fold_lookup.
  case_decide as H0; split; try discriminate; try (intros [-> ?]; contradiction).
  - intros Hn. injection Hn as <-. auto.
  - intros [-> _]. reflexivity.
Qed.

(** ** nogpsdir groups by the walked directory *)

Lemma rfind_after_app (c : Z) (s1 s2 : pystr) (i best : nat) :
  rfind_after c (s1 ++ s2) i best = rfind_after c s2 (i + length s1) (rfind_after c s1 i best).
Proof.
  revert i best; induction s1 as [|d s1 IH]; intros i best; simpl; [by rewrite Nat.add_0_r|].
  rewrite IH. f_equal. lia.
Qed.

Lemma rfind_after_absent (c : Z) (s : pystr) (i best : nat) :
  c ∉ s -> rfind_after c s i best = best.
Proof.
  revert i best; induction s as [|d s IH]; intros i best Hc; simpl; [reflexivity|].
  apply not_elem_of_cons in Hc as [Hd Hs].
  destruct (Z.eqb_spec d c); [congruence|]. apply IH, Hs.
Qed.

Lemma rfind_after_last (s b : pystr) :
  47 ∉ b -> rfind_after 47 (s ++ [47] ++ b) 0 0 = length (s ++ [47]).
Proof.
  intros Hb. rewrite app_assoc, rfind_after_app, rfind_after_absent by exact Hb.
  rewrite rfind_after_app. simpl. rewrite length_app. simpl. lia.
Qed.

Lemma rstrip_by_snoc (p : Z -> bool) (s : pystr) (c : Z) :
  rstrip_by p (s ++ [c]) = if p c then rstrip_by p s else s ++ [c].
Proof.
  unfold rstrip_by. rewrite rev_unit. simpl. destruct (p c); [reflexivity|].
  simpl. rewrite rev_involutive. reflexivity.
Qed.

Lemma dirname_slash (s b : pystr) :
  47 ∉ b -> dirname (s ++ [47] ++ b) =
    if forallb (Z.eqb 47) s then s ++ [47] else rstrip_by (Z.eqb 47) s.
Proof.
  intros Hb. unfold dirname. rewrite rfind_after_last by exact Hb.
  rewrite app_assoc, take_app_length.
  rewrite (bool_decide_eq_true_2 (s ++ [47] <> [])) by (destruct s; discriminate).
  rewrite forallb_app. simpl. rewrite andb_true_r.
  destruct (forallb (Z.eqb 47) s); simpl; [reflexivity|].
  rewrite rstrip_by_snoc, Z.eqb_refl. reflexivity.
Qed.

Lemma dirname_join (a b : pystr) : 47 ∉ b -> dirname (os_path_join a b) = dir_norm a.
Proof.
  intros Hb.
  assert (Hs : starts_with (lit "/") b = false).
  { destruct b as [|d b]; [reflexivity|]. change (lit "/") with [47]. cbn [starts_with].
    destruct (Z.eqb_spec 47 d) as [<-|]; [|reflexivity].
    exfalso. apply Hb. left. }
  unfold os_path_join. rewrite Hs. unfold dir_norm.
  destruct a as [|d a] using rev_ind.
  - simpl. unfold dirname. rewrite rfind_after_absent by exact Hb. reflexivity.
  - clear IHa.
    rewrite (bool_decide_eq_false_2 (a ++ [d] = [])) by (destruct a; discriminate).
    assert (He : ends_with (lit "/") (a ++ [d]) = (47 =? d)).
    { unfold ends_with. rewrite rev_unit. change (rev (lit "/")) with [47].
      cbn [starts_with]. apply andb_true_r. }
    rewrite He, orb_false_l, forallb_app. cbn [forallb]. rewrite andb_true_r.
    destruct (Z.eqb_spec 47 d) as [<-|Hd].
    + rewrite <- app_assoc, (dirname_slash a b Hb), andb_true_r.
      rewrite rstrip_by_snoc. reflexivity.
    + change (lit "/" ++ b) with ([47] ++ b). rewrite (dirname_slash (a ++ [d]) b Hb).
      rewrite forallb_app. cbn [forallb]. rewrite (proj2 (Z.eqb_neq 47 d) Hd), !andb_true_r.
      rewrite !andb_false_r. reflexivity.
Qed.

Lemma tasks_in_dir_elem (sieve_f : pystr -> bool) (exclude : list pystr) (path : pystr)
    (files : list pystr) (ff : pystr) :
  ff ∈ tasks_in_dir sieve_f exclude path files -> exists f, f ∈ files /\ ff = os_path_join path f.
Proof.
  induction files as [|f fs IH]; simpl; [intros H; inversion H|].
  destruct (existsb _ _); [|destruct (sieve_f _)].
  - intros H. destruct (IH H) as (g & Hg & ->). exists g. split; [right|]; auto.
  - intros H. apply elem_of_cons in H as [->|H]; [exists f; split; [left|reflexivity]|].
    destruct (IH H) as (g & Hg & ->). exists g. split; [right|]; auto.
  - intros H. destruct (IH H) as (g & Hg & ->). exists g. split; [right|]; auto.
Qed.

(** os.path.dirname undoes os.path.join for a file name without a slash:
    it gives the directory back without its trailing slashes (a directory
    of slashes only is kept). So when the walk yields file names without
    slashes, every directory nogpsdir counts is a directory the walk
    visited, with trailing slashes removed. *)
Theorem nogpsdir_dirs (exif : pystr -> Res Exif) (sieve_f : pystr -> bool)
    (exclude : list pystr) (walk : list (pystr * list pystr * list pystr)) :
  (forall a b, 47 ∉ b -> dirname (os_path_join a b) = dir_norm a) /\
  ((forall p ds fs f, (p, ds, fs) ∈ walk -> f ∈ fs -> 47 ∉ f) ->
   forall ff d g, ff ∈ tasks_of sieve_f exclude walk -> nogpsdir_worker exif ff = Ok (d, g) ->
   exists p ds fs, (p, ds, fs) ∈ walk /\ d = dir_norm p).
Proof.
  split; [exact dirname_join|].
  intros Hnames ff d g Hff Hw.
  unfold tasks_of in Hff. apply list_elem_of_In, in_flat_map in Hff as ([[p ds] fs] & Hin & Hff).
  apply list_elem_of_In, tasks_in_dir_elem in Hff as (f & Hf & ->).
  unfold nogpsdir_worker in Hw. destruct (exif (os_path_join p f)); simpl in Hw; [|discriminate].
  injection Hw as <- _. exists p, ds, fs. split; [apply list_elem_of_In, Hin|].
  apply dirname_join. apply (Hnames p ds fs f); [apply list_elem_of_In, Hin | exact Hf].
Qed.

(** ** The image sieve *)

Lemma starts_with_spec (p s : pystr) : starts_with p s = true <-> exists k, s = p ++ k.
Proof.
  revert s. induction p as [|c p IH]; intros [|d s]; simpl.
  - split; eauto.
  - split; eauto.
  - split; [discriminate | intros (k & Hk); discriminate].
  - rewrite andb_true_iff, Z.eqb_eq, IH. split.
    + intros (-> & k & ->). eauto.
    + intros (k & Hk). injection Hk as -> ->. eauto.
Qed.

Lemma ends_with_spec (p s : pystr) : ends_with p s = true <-> exists k, s = k ++ p.
Proof.
  unfold ends_with. rewrite starts_with_spec. split.
  - intros (k & Hk). exists (rev k). rewrite <- (rev_involutive s), Hk, rev_app_distr,
      rev_involutive. reflexivity.
  - intros (k & ->). exists (rev k). apply rev_app_distr.
Qed.

Lemma starts_with_past_slash (y s t : pystr) :
  47 ∉ y -> starts_with y (s ++ 47 :: t) = starts_with y s.
Proof.
  revert s. induction y as [|c y IH]; intros s Hy; [destruct s; reflexivity|].
  apply not_elem_of_cons in Hy as [Hc Hy].
  destruct s as [|d s]; simpl.
  - destruct (Z.eqb_spec c 47); [congruence | reflexivity].
  - rewrite IH by exact Hy. reflexivity.
Qed.

Lemma ends_with_after_slash (x q f : pystr) :
  47 ∉ x -> ends_with x (q ++ [47] ++ f) = ends_with x f.
Proof.
  intros Hx. unfold ends_with. rewrite !rev_app_distr. simpl.
  rewrite <- app_assoc. simpl. apply starts_with_past_slash.
  intros H. apply Hx. apply list_elem_of_In, in_rev, list_elem_of_In, H.
Qed.

Lemma ends_with_join (x a f : pystr) :
  47 ∉ x -> 47 ∉ f -> ends_with x (os_path_join a f) = ends_with x f.
Proof.
  intros Hx Hf. unfold os_path_join.
  assert (Hs : starts_with (lit "/") f = false).
  { destruct f as [|d f]; [reflexivity|]. change (lit "/") with [47]. cbn [starts_with].
    destruct (Z.eqb_spec 47 d) as [<-|]; [|reflexivity].
    exfalso. apply Hf. left. }
  rewrite Hs. destruct (bool_decide (a = [])) eqn:Ha.
  - apply bool_decide_eq_true_1 in Ha as ->. reflexivity.
  - simpl. destruct (ends_with (lit "/") a) eqn:He.
    + apply ends_with_spec in He as (q & ->). change (lit "/") with [47].
      rewrite <- app_assoc. apply ends_with_after_slash, Hx.
    + change (lit "/" ++ f) with ([47] ++ f). apply ends_with_after_slash, Hx.
Qed.

Lemma img_join (has_heif : bool) (a f : pystr) :
  47 ∉ f -> img has_heif (os_path_join a f) = img has_heif f.
Proof.
  intros Hf. unfold img.
  rewrite !ends_with_join; [reflexivity | | exact Hf | | exact Hf];
    intros H; vm_compute in H; repeat (apply elem_of_cons in H as [H|H]; [discriminate|]);
    inversion H.
Qed.

Lemma tasks_in_dir_img (has_heif : bool) (exclude : list pystr) (p : pystr) (fs : list pystr) :
  (forall f, f ∈ fs -> 47 ∉ f) ->
  tasks_in_dir (img has_heif) exclude p fs
    = tasks_in_dir (img has_heif) exclude p (filter (fun f => img has_heif f = true) fs).
Proof.
  induction fs as [|f fs IH]; intros Hfs; [reflexivity|].
  rewrite filter_cons.
  assert (IH' : tasks_in_dir (img has_heif) exclude p fs
                = tasks_in_dir (img has_heif) exclude p (filter (fun f => img has_heif f = true) fs))
    by (apply IH; intros g Hg; apply Hfs; right; exact Hg).
  assert (Hj : img has_heif (os_path_join p f) = img has_heif f) by (apply img_join, Hfs; left).
  case_decide as Hi; simpl; rewrite Hj.
  - rewrite Hi, IH'. reflexivity.
  - apply not_true_is_false in Hi. rewrite Hi, IH'. destruct (existsb _ _); reflexivity.
Qed.

(** img accepts a path exactly when it ends in ".jpg", or in ".heic"
    when HEIF support is loaded (case-sensitively). Since os.walk yields
    file names without slashes, removing from the walk every file name
    that img rejects changes nothing in the run of any mode but ftypes:
    those modes never look at another file. *)
Theorem image_modes_sieve (has_heif : bool) :
  (forall f, img has_heif f = true <->
     (exists s, f = s ++ lit ".jpg") \/ (has_heif = true /\ exists s, f = s ++ lit ".heic")) /\
  (forall m exif walk exclude complete, m <> MFtypes ->
     (forall p ds fs f, (p, ds, fs) ∈ walk -> f ∈ fs -> 47 ∉ f) ->
     run_mode m has_heif exif walk exclude complete
       = run_mode m has_heif exif
           (map (fun '(p, ds, fs) => (p, ds, filter (fun f => img has_heif f = true) fs)) walk)
           exclude complete).
Proof.
  split.
  - intros f. unfold img. rewrite orb_true_iff, andb_true_iff, !ends_with_spec. tauto.
  - intros m exif walk exclude complete Hm Hnames.
    assert (Ht : tasks_of (img has_heif) exclude walk
                 = tasks_of (img has_heif) exclude
                     (map (fun '(p, ds, fs) => (p, ds, filter (fun f => img has_heif f = true) fs))
                        walk)).
    { induction walk as [|[[p ds] fs] walk IH]; [reflexivity|]. unfold tasks_of in *. simpl.
      rewrite <- tasks_in_dir_img by (intros f Hf; apply (Hnames p ds fs f); [left|exact Hf]).
      f_equal. apply IH. intros p' ds' fs' f Hw Hf. apply (Hnames p' ds' fs' f); [right|]; assumption. }
    destruct m; try congruence; unfold run_mode, main; rewrite <- Ht; reflexivity.
Qed.

(** ** The older NoCam against the final nocam *)

(** The older NoCam ([e.get(Make) == "" or e.get(Model) == ""]) lists a
    file exactly when its Make or Model is the empty text, and every file
    it lists is listed by the final nocam too; both raise exactly when the
    metadata reader raises. *)
Theorem legacy_nocam_refined (exif : pystr -> Res Exif) (f : pystr) (e : Exif)
    (He : exif f = Ok e) (Hf : f <> []) :
  (legacy_nocam exif f = Ok f <->
     base e !! Make = Some (TStr []) \/ base e !! Model = Some (TStr [])) /\
  (legacy_nocam exif f = Ok f -> nocam exif f = Ok f).
Proof.
  unfold legacy_nocam, nocam. rewrite He. simpl. unfold get_falsy.
  split.
  - destruct (base e !! Make) as [[[|c s]|b|z|vs]|] eqn:Hm;
      destruct (base e !! Model) as [[[|c' s']|b'|z'|vs']|] eqn:Hd; simpl;
      split; intros H; try reflexivity; try (left; reflexivity); try (right; reflexivity);
      try (injection H as H; congruence); destruct H as [H|H]; discriminate.
  - destruct (base e !! Make) as [[[|c s]|b|z|vs]|] eqn:Hm;
      destruct (base e !! Model) as [[[|c' s']|b'|z'|vs']|] eqn:Hd; simpl; intros H;
      try reflexivity; try (injection H as H; congruence); rewrite orb_true_r; reflexivity.
Qed.

Lemma legacy_nocam_refined_witness :
  legacy_nocam (fun _ => Ok (mkExif {[Make := TStr []]} ∅)) (lit "a.jpg") = Ok (lit "a.jpg") /\
  nocam (fun _ => Ok (mkExif {[Make := TStr []]} ∅)) (lit "a.jpg") = Ok (lit "a.jpg").
Proof.
  assert (H : legacy_nocam (fun _ => Ok (mkExif {[Make := TStr []]} ∅)) (lit "a.jpg")
              = Ok (lit "a.jpg")) by reflexivity.
  split; [exact H|].
  exact (proj2 (legacy_nocam_refined (fun _ => Ok (mkExif {[Make := TStr []]} ∅)) (lit "a.jpg")
                  (mkExif {[Make := TStr []]} ∅) eq_refl ltac:(discriminate)) H).
Defined.
